(** * tcp_forwarder.cpp: a shallow embedding of the forwarding engine

    The development follows src/tcp_forwarder.cpp: the expansion of the
    [forwarders] entries into listener and target endpoints
    ([TCPForwarder::TCPForwarder]), the per-connection object [Session]
    with its completion handlers, the accept handler
    ([TCPForwarder::plz_accept]) and the [HealthChecker] as [main] uses it.

    Asynchronous operations are modelled as data: issuing one adds an [op]
    to the operations outstanding, and the reactor later delivers a
    [completion] to the handler the source passes with it.  Each
    outstanding operation of a [Session] owns a [shared_ptr] to it ([self]
    in the captures), so the object is destroyed when a handler returns
    and nothing is outstanding.

    What the model leaves to the library and the platform:
    - a handler runs to its end before the next one starts (handlers are
      the atomic steps; the counter is atomic in the source, the members
      of a session are not), but for [close_sockets], whose steps are
      also given one by one for two pool threads that run two handlers
      of a session at once;
    - log calls are recorded as events, whatever the logger then does;
    - C++ exceptions (a failed bind, a failed allocation) are not
      modelled, except that a constructor that throws yields [None];
    - time is the reading of a clock handed to each handler; a wait on a
      timer that nobody cancels does not end before the timer expires. *)

From Stdlib Require Import ZArith List Lia Bool.
From stdpp Require Import base numbers option list gmap strings.

Local Open Scope Z_scope.

(** ** Machine integers *)

Module Int.

Definition INT_MAX : Z := 2147483647.
Definition INT_MIN : Z := -2147483648.

Definition in_range (z : Z) : Prop := INT_MIN <= z <= INT_MAX.

(** [std::atomic<int>] arithmetic wraps around in two's complement. *)
Definition wrap (z : Z) : Z := (z + 2147483648) mod 4294967296 - 2147483648.

(** Conversion of an [int] to [unsigned short] (the port of an endpoint). *)
Definition to_port (z : Z) : Z := z mod 65536.

End Int.

(** ** Configuration: forwarders and their expansion *)

(** [tcp::endpoint(address, port)]: the port is an [unsigned short]. *)
Record endpoint := { address : string; port : Z }.

Definition tcp_endpoint (addr : string) (p : Z) : endpoint :=
  {| address := addr; port := Int.to_port p |}.

(** One entry of the [forwarders] sequence.  A key that is absent from the
    YAML node is [None]; [as<int>()] on an absent key throws. *)
Record ForwardRule := {
  listen_address : string;
  target_address : string;
  port_range : option (Z * Z);      (* port_range.start, port_range.end *)
  listen_port : option Z;
  target_port : option Z
}.

(** The pair handed to [start_con]: where to listen and where to forward. *)
Definition listener_pair : Type := endpoint * endpoint.

(** The loop [for (int port = start_port; port <= end_port; ++port)].
    [None] when [++port] would overflow (or the fuel runs out). *)
Fixpoint range_loop (fuel : nat) (la ta : string) (p end_port : Z)
  : option (list listener_pair) :=
  if p <=? end_port then
    match fuel with
    | O => None
    | S fuel' =>
        if p =? Int.INT_MAX then None
        else
          match range_loop fuel' la ta (p + 1) end_port with
          | Some rest => Some ((tcp_endpoint la p, tcp_endpoint ta p) :: rest)
          | None => None
          end
    end
  else Some [].

(** The body of [for (const auto &forwarder : config["forwarders"])]. *)
Definition expand_forwarder (f : ForwardRule) : option (list listener_pair) :=
  match port_range f with
  | Some (start_port, end_port) =>
      range_loop (Z.to_nat (end_port - start_port + 1))
                 (listen_address f) (target_address f) start_port end_port
  | None =>
      match listen_port f, target_port f with
      | Some lp, Some tp =>
          Some [(tcp_endpoint (listen_address f) lp,
                 tcp_endpoint (target_address f) tp)]
      | _, _ => None
      end
  end.

(** All the [start_con] calls of the constructor, in order. *)
Fixpoint expand_forwarders (fs : list ForwardRule) : option (list listener_pair) :=
  match fs with
  | [] => Some []
  | f :: rest =>
      match expand_forwarder f, expand_forwarders rest with
      | Some ps, Some qs => Some (ps ++ qs)
      | _, _ => None
      end
  end.

Definition ports_of (p : listener_pair) : Z * Z := (port (fst p), port (snd p)).

Definition rule_8000_8002 : ForwardRule :=
  {| listen_address := "0.0.0.0"; target_address := "10.0.0.1";
     port_range := Some (8000, 8002);
     listen_port := None; target_port := Some 9000 |}.


(** ** asio: error codes, log calls, observable events *)

Inductive error_code :=
| success
| operation_aborted
| failure (value : Z).       (* any other error: eof, connection refused, ... *)

(** [if (ec)]: true when the code carries an error. *)
Definition is_error (ec : error_code) : bool :=
  match ec with success => false | _ => true end.

(** [ec != boost::asio::error::operation_aborted] *)
Definition not_aborted (ec : error_code) : bool :=
  match ec with operation_aborted => false | _ => true end.

Inductive LogLevel := TRACE | DEBUG | INFO | WARN | ERROR | ALL.

(** The argument of a log call: fixed text, possibly followed by
    [std::to_string] of a number or by [ec.message()]. *)
Inductive message :=
| text (s : string)
| text_int (s : string) (n : Z)
| text_error (s : string) (ec : error_code)
| text_attempt (n : Z) (ec : error_code).   (* "Connection attempt N failed: ..." *)

Inductive socket_ref := in_socket | out_socket.
Inductive buffer_ref := data_in | data_out.

(** What a handler does to the outside, in program order. *)
Inductive event :=
| ev_log (level : LogLevel) (m : message)
| ev_increment (value : Z)                 (* ++active_connections_, new value *)
| ev_decrement (value : Z)                 (* --active_connections_, new value *)
| ev_connect (at_time : Z)                 (* out_socket_.async_connect issued *)
| ev_expires_after (at_time seconds : Z)   (* timer_.expires_after *)
| ev_read (source : socket_ref)            (* source.async_read_some issued *)
| ev_write (destination : socket_ref) (bytes : list Byte.byte)
                                           (* async_write issued on these bytes *)
| ev_close (s : socket_ref) (was_open : bool)  (* close() on a session socket *)
| ev_received (source : socket_ref) (data : list Byte.byte)
                                           (* a read handed these bytes over *)
| ev_delivered (destination : socket_ref) (data : list Byte.byte)
                                           (* a write passed these bytes on *)
| ev_accept                                (* acceptor->async_accept issued *)
| ev_reject.                               (* in_socket.close() on a refused peer *)

(** ** Session *)

(** Asynchronous operations a [Session] issues; each holds [self]. *)
Inductive op :=
| async_connect
| async_wait
| async_read_some (source destination : socket_ref) (buffer : buffer_ref)
| async_write (source destination : socket_ref) (buffer : buffer_ref) (length : nat).

#[global] Instance error_code_eq_dec : EqDecision error_code.
Proof. solve_decision. Defined.
#[global] Instance socket_ref_eq_dec : EqDecision socket_ref.
Proof. solve_decision. Defined.
#[global] Instance buffer_ref_eq_dec : EqDecision buffer_ref.
Proof. solve_decision. Defined.
#[global] Instance op_eq_dec : EqDecision op.
Proof. solve_decision. Defined.

Record Session := {
  in_socket_ : bool;               (* in_socket_.is_open() *)
  out_socket_ : bool;              (* out_socket_.is_open() *)
  target_endpoint_ : endpoint;
  buffer_size_ : nat;
  tcp_no_delay_ : bool;
  retry_attempts_ : Z;
  retry_delay_ : Z;
  current_attempt_ : Z;
  timer_ : Z;                      (* expiry time of the steady_timer *)
  data_in_ : list Byte.byte;
  data_out_ : list Byte.byte;
  outstanding : list op;           (* operations in flight, each owning self *)
  now : Z                          (* clock reading of the running handler *)
}.

Definition get_socket (r : socket_ref) (s : Session) : bool :=
  match r with in_socket => in_socket_ s | out_socket => out_socket_ s end.

Definition get_buffer (b : buffer_ref) (s : Session) : list Byte.byte :=
  match b with data_in => data_in_ s | data_out => data_out_ s end.

Definition set_socket (r : socket_ref) (v : bool) (s : Session) : Session :=
  {| in_socket_ := match r with in_socket => v | out_socket => in_socket_ s end;
     out_socket_ := match r with out_socket => v | in_socket => out_socket_ s end;
     target_endpoint_ := target_endpoint_ s; buffer_size_ := buffer_size_ s;
     tcp_no_delay_ := tcp_no_delay_ s; retry_attempts_ := retry_attempts_ s;
     retry_delay_ := retry_delay_ s; current_attempt_ := current_attempt_ s;
     timer_ := timer_ s; data_in_ := data_in_ s; data_out_ := data_out_ s;
     outstanding := outstanding s; now := now s |}.

Definition set_buffer (b : buffer_ref) (v : list Byte.byte) (s : Session) : Session :=
  {| in_socket_ := in_socket_ s; out_socket_ := out_socket_ s;
     target_endpoint_ := target_endpoint_ s; buffer_size_ := buffer_size_ s;
     tcp_no_delay_ := tcp_no_delay_ s; retry_attempts_ := retry_attempts_ s;
     retry_delay_ := retry_delay_ s; current_attempt_ := current_attempt_ s;
     timer_ := timer_ s;
     data_in_ := match b with data_in => v | data_out => data_in_ s end;
     data_out_ := match b with data_out => v | data_in => data_out_ s end;
     outstanding := outstanding s; now := now s |}.

Definition set_current_attempt (v : Z) (s : Session) : Session :=
  {| in_socket_ := in_socket_ s; out_socket_ := out_socket_ s;
     target_endpoint_ := target_endpoint_ s; buffer_size_ := buffer_size_ s;
     tcp_no_delay_ := tcp_no_delay_ s; retry_attempts_ := retry_attempts_ s;
     retry_delay_ := retry_delay_ s; current_attempt_ := v;
     timer_ := timer_ s; data_in_ := data_in_ s; data_out_ := data_out_ s;
     outstanding := outstanding s; now := now s |}.

Definition set_timer (v : Z) (s : Session) : Session :=
  {| in_socket_ := in_socket_ s; out_socket_ := out_socket_ s;
     target_endpoint_ := target_endpoint_ s; buffer_size_ := buffer_size_ s;
     tcp_no_delay_ := tcp_no_delay_ s; retry_attempts_ := retry_attempts_ s;
     retry_delay_ := retry_delay_ s; current_attempt_ := current_attempt_ s;
     timer_ := v; data_in_ := data_in_ s; data_out_ := data_out_ s;
     outstanding := outstanding s; now := now s |}.

Definition set_outstanding (v : list op) (s : Session) : Session :=
  {| in_socket_ := in_socket_ s; out_socket_ := out_socket_ s;
     target_endpoint_ := target_endpoint_ s; buffer_size_ := buffer_size_ s;
     tcp_no_delay_ := tcp_no_delay_ s; retry_attempts_ := retry_attempts_ s;
     retry_delay_ := retry_delay_ s; current_attempt_ := current_attempt_ s;
     timer_ := timer_ s; data_in_ := data_in_ s; data_out_ := data_out_ s;
     outstanding := v; now := now s |}.

Definition set_now (v : Z) (s : Session) : Session :=
  {| in_socket_ := in_socket_ s; out_socket_ := out_socket_ s;
     target_endpoint_ := target_endpoint_ s; buffer_size_ := buffer_size_ s;
     tcp_no_delay_ := tcp_no_delay_ s; retry_attempts_ := retry_attempts_ s;
     retry_delay_ := retry_delay_ s; current_attempt_ := current_attempt_ s;
     timer_ := timer_ s; data_in_ := data_in_ s; data_out_ := data_out_ s;
     outstanding := outstanding s; now := v |}.

(** *** Handlers as state transformers with an event log *)

Definition action : Type := Session -> Session * list event.

Definition skip : action := fun s => (s, []).

Definition and_then (a b : action) : action :=
  fun s => let '(s1, e1) := a s in
           let '(s2, e2) := b s1 in (s2, e1 ++ e2).

Declare Scope action_scope.
Delimit Scope action_scope with act.
Bind Scope action_scope with action.
Notation "a >> b" := (and_then a b) (at level 65, right associativity) : action_scope.
Local Open Scope action_scope.

Definition emit (e : event) : action := fun s => (s, [e]).

Definition logger_ (level : LogLevel) (m : message) : action := emit (ev_log level m).

(** Hand an operation to the reactor; its handler keeps [self] alive. *)
Definition issue (o : op) : action :=
  fun s => (set_outstanding (outstanding s ++ [o]) s, []).

(** [socket.close(ec)]: closing a socket that is not open does nothing.
    Here the look at the socket and the close are one step, as they are
    when the handlers of a session run one at a time; [close_steps] has
    the two halves for handlers that run at once. *)
Definition close (r : socket_ref) : action :=
  fun s => (set_socket r false s, [ev_close r (get_socket r s)]).

(** [Session::close_sockets] *)
Definition close_sockets : action :=
  close in_socket >> close out_socket >> logger_ INFO (text "Sockets closed").

(** [Session::forward_data]: issue the read; the handler is [on_read]. *)
Definition forward_data (source destination : socket_ref) (buffer : buffer_ref) : action :=
  emit (ev_read source) >> issue (async_read_some source destination buffer).

(** The handler of [async_write] inside [forward_data]. *)
Definition on_write (source destination : socket_ref) (buffer : buffer_ref)
    (write_ec : error_code) : action :=
  if negb (is_error write_ec) then
    logger_ TRACE (text "Data forwarded successfully.") >>
    forward_data source destination buffer
  else if not_aborted write_ec then
    logger_ ERROR (text_error "Write error: " write_ec) >>
    close_sockets
  else skip.

(** [boost::asio::async_write(destination, boost::asio::buffer(buffer, length), ...)] *)
Definition write_all (source destination : socket_ref) (buffer : buffer_ref)
    (length : nat) : action :=
  (fun s => emit (ev_write destination (take length (get_buffer buffer s))) s) >>
  issue (async_write source destination buffer length).

(** The handler of [async_read_some] in [forward_data]. *)
Definition on_read (source destination : socket_ref) (buffer : buffer_ref)
    (ec : error_code) (length : nat) : action :=
  if negb (is_error ec) then
    logger_ DEBUG (text_int "Data read from the sourcePoint. Length: " (Z.of_nat length)) >>
    write_all source destination buffer length
  else if not_aborted ec then
    logger_ ERROR (text_error "Read error: " ec) >>
    close_sockets
  else skip.

(** [Session::plz_forward] *)
Definition plz_forward : action :=
  logger_ TRACE (text "Starting data forwarding...") >>
  forward_data in_socket out_socket data_in >>
  forward_data out_socket in_socket data_out.

(** [out_socket_.async_connect(target_endpoint_, ...)]: the socket is opened
    if it is not open yet. *)
Definition connect_out : action :=
  (fun s => (set_socket out_socket true s, [ev_connect (now s)])) >>
  issue async_connect.

(** [Session::attempt_connection] *)
Definition attempt_connection : action :=
  fun s =>
    if current_attempt_ s >=? retry_attempts_ s then
      logger_ ERROR (text "max retry attempts has been reached. Connection failed.") s
    else
      (logger_ TRACE (text "Attempting to connect to target IP...") >>
       connect_out) s.

(** [timer_.expires_after(std::chrono::seconds(retry_delay_))]; no wait is
    outstanding on [timer_] when the session calls it. *)
Definition expires_after (seconds : Z) : action :=
  fun s => (set_timer (now s + seconds) s, [ev_expires_after (now s) seconds]).

(** [out_socket_.set_option(tcp::no_delay(tcp_no_delay_), ec)] and the log
    call that follows it; [ec] is what the call reports. *)
Definition set_no_delay_out (ec : error_code) : action :=
  if is_error ec then
    logger_ ERROR (text_error "setting up TCP nodelay on outgoing socket failed: " ec)
  else
    logger_ INFO (text "TCP nodelay has been set on outgoing socket").

(** The handler of [async_connect] in [attempt_connection]. *)
Definition on_connect (ec nodelay_ec : error_code) : action :=
  if negb (is_error ec) then
    logger_ INFO (text "Connected to target endpoint successfully.") >>
    set_no_delay_out nodelay_ec >>
    plz_forward
  else
    (fun s => logger_ WARN (text_attempt (current_attempt_ s + 1) ec) s) >>
    (fun s => (set_current_attempt (current_attempt_ s + 1) s, [])) >>
    (fun s => expires_after (retry_delay_ s) s) >>
    issue async_wait.

(** The handler of [timer_.async_wait]: the error code is ignored. *)
Definition on_wait (ec : error_code) : action := attempt_connection.

(** [Session::start] *)
Definition start : action :=
  logger_ TRACE (text "Starting session..") >> attempt_connection.

(** *** Construction and destruction *)

(** The member initialisers of [Session::Session]; [t] is the time of the
    accept handler that constructs the object. *)
Definition Session_members (t : Z) (target : endpoint) (buffer_size : nat)
    (tcp_no_delay : bool) (retry_attempts retry_delay : Z) : Session :=
  {| in_socket_ := true; out_socket_ := false;
     target_endpoint_ := target; buffer_size_ := buffer_size;
     tcp_no_delay_ := tcp_no_delay; retry_attempts_ := retry_attempts;
     retry_delay_ := retry_delay; current_attempt_ := 0;
     timer_ := t;
     data_in_ := repeat Byte.x00 buffer_size;
     data_out_ := repeat Byte.x00 buffer_size;
     outstanding := []; now := t |}.

(** The body of [Session::Session]: count the session, then set the option
    on the inbound socket ([nodelay_ec] is what [set_option] reports). *)
Definition Session_ctor (t : Z) (target : endpoint) (buffer_size : nat)
    (tcp_no_delay : bool) (retry_attempts retry_delay : Z)
    (nodelay_ec : error_code) (active_connections : Z)
  : Session * Z * list event :=
  let c := Int.wrap (active_connections + 1) in
  (Session_members t target buffer_size tcp_no_delay retry_attempts retry_delay,
   c,
   [ev_increment c;
    ev_log DEBUG (text_int "Session created. Active connections: " c);
    if is_error nodelay_ec
    then ev_log ERROR (text_error "seting up TCP nodelay on incoming socket failed: " nodelay_ec)
    else ev_log INFO (text "TCP nodelay has been set on incoming socket")]).

(** A [tcp::socket] member going away closes the socket if it is open. *)
Definition socket_dtor (r : socket_ref) (s : Session) : list event :=
  if get_socket r s then [ev_close r true] else [].

(** [Session::~Session] and, after its body, the destructors of the members
    in reverse order of declaration. *)
Definition Session_dtor (s : Session) (active_connections : Z) : Z * list event :=
  let c := Int.wrap (active_connections - 1) in
  (c,
   [ev_decrement c;
    ev_log DEBUG (text_int "Session destroyed. Active connections: " c)]
   ++ socket_dtor out_socket s ++ socket_dtor in_socket s).

(** *** Completions delivered by the reactor *)

Inductive completion :=
| connect_done (ec nodelay_ec : error_code)
| wait_done (ec : error_code)
| read_done (source destination : socket_ref) (buffer : buffer_ref)
            (ec : error_code) (data : list Byte.byte)
| write_done (source destination : socket_ref) (buffer : buffer_ref) (length : nat)
             (write_ec : error_code) (transferred : nat).

(** Remove one occurrence of an operation that has completed. *)
Fixpoint take_op (o : op) (l : list op) : option (list op) :=
  match l with
  | [] => None
  | x :: rest =>
      if decide (x = o) then Some rest
      else match take_op o rest with
           | Some rest' => Some (x :: rest')
           | None => None
           end
  end.

Definition complete (o : op) (t : Z) (s : Session) : option Session :=
  match take_op o (outstanding s) with
  | Some rest => Some (set_now t (set_outstanding rest s))
  | None => None
  end.

(** One completion at time [t]: what the library does (hand over the bytes,
    drop the operation's [self]) and then the handler.  [None] when the
    library cannot produce this completion in this state:
    - no such operation is outstanding, or the clock would run backwards;
    - a wait on [timer_], which nothing cancels, ends before its expiry
      or with an error;
    - a read returns more bytes than the buffer holds, or bytes with an
      error;
    - a composed write reports success without having passed on all
      bytes, or reports more than it was given. *)
Definition deliver (t : Z) (c : completion) (s : Session)
  : option (Session * list event) :=
  if now s <=? t then
    match c with
    | connect_done ec nodelay_ec =>
        match complete async_connect t s with
        | Some s1 => Some (on_connect ec nodelay_ec s1)
        | None => None
        end
    | wait_done ec =>
        if negb (is_error ec) && (timer_ s <=? t) then
          match complete async_wait t s with
          | Some s1 => Some (on_wait ec s1)
          | None => None
          end
        else None
    | read_done source destination buffer ec data =>
        if (length data <=? length (get_buffer buffer s))%nat
           && (negb (is_error ec) || bool_decide (data = [])) then
          match complete (async_read_some source destination buffer) t s with
          | Some s1 =>
              let filled := data ++ drop (length data) (get_buffer buffer s1) in
              let '(s2, es) :=
                on_read source destination buffer ec (length data)
                        (set_buffer buffer filled s1) in
              Some (s2, ev_received source data :: es)
          | None => None
          end
        else None
    | write_done source destination buffer n write_ec transferred =>
        let given := take n (get_buffer buffer s) in
        if (transferred <=? length given)%nat
           && (is_error write_ec || (transferred =? length given)%nat) then
          match complete (async_write source destination buffer n) t s with
          | Some s1 =>
              let '(s2, es) := on_write source destination buffer write_ec s1 in
              Some (s2, ev_delivered destination (take transferred given) :: es)
          | None => None
          end
        else None
    end
  else None.

(** A sequence of timed completions, as the reactor hands them to one
    session; the events of all handlers in order. *)
Fixpoint run (cs : list (Z * completion)) (s : Session)
  : option (Session * list event) :=
  match cs with
  | [] => Some (s, [])
  | (t, c) :: rest =>
      match deliver t c s with
      | Some (s1, e1) =>
          match run rest s1 with
          | Some (s2, e2) => Some (s2, e1 ++ e2)
          | None => None
          end
      | None => None
      end
  end.

(** A session from its construction at time [t] up to the return of
    [start()], without the counter. *)
Definition started (t : Z) (target : endpoint) (buffer_size : nat)
    (tcp_no_delay : bool) (retry_attempts retry_delay : Z) : Session * list event :=
  start (Session_members t target buffer_size tcp_no_delay retry_attempts retry_delay).

(** ** TCPForwarder: listeners, the accept handler, the live sessions *)

(** The values the constructor reads from the configuration and hands to
    every [start_con]; all of them are [int] but [buffer_size]. *)
Record ForwarderConfig := {
  buffer_size : nat;
  tcp_no_delay : bool;
  retry_attempts : Z;
  retry_delay : Z;
  max_connections : Z
}.

(** An acceptor made by [start_con], with the target its accept handler
    captures and the number of [async_accept] calls in flight. *)
Record Listener := {
  acceptor : endpoint;
  target_endpoint : endpoint;
  accepting : nat
}.

(** The forwarder and the heap of [Session] objects that are alive.  Nothing
    in the source points to a session but the handlers of its own
    operations; the map stands for the heap. *)
Record TCPForwarder := {
  settings : ForwarderConfig;
  active_connections_ : Z;
  listeners : list Listener;
  sessions : gmap nat Session;
  next_session : nat               (* the next fresh heap address *)
}.

Inductive origin := at_listener (i : nat) | at_session (sid : nat).

#[global] Instance origin_eq_dec : EqDecision origin.
Proof. solve_decision. Defined.

Definition sys_event : Type := origin * event.

Definition tag (o : origin) (es : list event) : list sys_event := map (pair o) es.

Definition set_listeners (v : list Listener) (w : TCPForwarder) : TCPForwarder :=
  {| settings := settings w; active_connections_ := active_connections_ w;
     listeners := v; sessions := sessions w; next_session := next_session w |}.

Definition set_sessions (v : gmap nat Session) (w : TCPForwarder) : TCPForwarder :=
  {| settings := settings w; active_connections_ := active_connections_ w;
     listeners := listeners w; sessions := v; next_session := next_session w |}.

Definition set_active_connections (v : Z) (w : TCPForwarder) : TCPForwarder :=
  {| settings := settings w; active_connections_ := v;
     listeners := listeners w; sessions := sessions w; next_session := next_session w |}.

Definition set_next_session (v : nat) (w : TCPForwarder) : TCPForwarder :=
  {| settings := settings w; active_connections_ := active_connections_ w;
     listeners := listeners w; sessions := sessions w; next_session := v |}.

Definition set_accepting (n : nat) (l : Listener) : Listener :=
  {| acceptor := acceptor l; target_endpoint := target_endpoint l; accepting := n |}.

(** [TCPForwarder::plz_accept]: issue [async_accept] on listener [i]. *)
Definition plz_accept (i : nat) (w : TCPForwarder) : TCPForwarder * list sys_event :=
  (set_listeners (alter (fun l => set_accepting (S (accepting l)) l) i (listeners w)) w,
   [(at_listener i, ev_accept)]).

(** A [shared_ptr] to session [sid] goes away at the end of a handler (or
    of the full expression [make_shared<Session>(...)->start()]): when no
    operation is outstanding it was the last one, and the object dies. *)
Definition drop_self (sid : nat) (w : TCPForwarder) : TCPForwarder * list sys_event :=
  match sessions w !! sid with
  | Some s =>
      match outstanding s with
      | [] =>
          let '(c, es) := Session_dtor s (active_connections_ w) in
          (set_active_connections c (set_sessions (delete sid (sessions w)) w),
           tag (at_session sid) es)
      | _ :: _ => (w, [])
      end
  | None => (w, [])
  end.

(** [std::make_shared<Session>(...)->start();] *)
Definition make_session (t : Z) (target : endpoint) (nodelay_ec : error_code)
    (w : TCPForwarder) : TCPForwarder * list sys_event :=
  let cfg := settings w in
  let sid := next_session w in
  let '(s0, c, e0) :=
    Session_ctor t target (buffer_size cfg) (tcp_no_delay cfg)
                 (retry_attempts cfg) (retry_delay cfg) nodelay_ec
                 (active_connections_ w) in
  let '(s1, e1) := start s0 in
  let w1 := set_next_session (S sid)
              (set_active_connections c
                 (set_sessions (<[sid := s1]> (sessions w)) w)) in
  let '(w2, e2) := drop_self sid w1 in
  (w2, tag (at_session sid) (e0 ++ e1) ++ e2).

(** The handler of [async_accept] in [plz_accept], for listener [i] whose
    captured target is [target]. *)
Definition on_accept (t : Z) (i : nat) (target : endpoint)
    (ec nodelay_ec : error_code) (w : TCPForwarder) : TCPForwarder * list sys_event :=
  let '(w1, e1) :=
    if negb (is_error ec) then
      if active_connections_ w >=? max_connections (settings w) then
        (w, tag (at_listener i)
              [ev_log WARN (text "max connections reached. Rejecting new connection.");
               ev_reject])
      else
        let '(w', es) := make_session t target nodelay_ec w in
        (w', (at_listener i, ev_log INFO (text "Accepted new connection")) :: es)
    else
      (w, [(at_listener i, ev_log ERROR (text_error "Accept error: " ec))]) in
  let '(w2, e2) := plz_accept i w1 in
  (w2, e1 ++ e2).

Inductive sys_completion :=
| accept_done (i : nat) (ec nodelay_ec : error_code)
| session_done (sid : nat) (c : completion).

(** One completion handed out by [io_context.run()] at time [t]. *)
Definition sys_deliver (t : Z) (c : sys_completion) (w : TCPForwarder)
  : option (TCPForwarder * list sys_event) :=
  match c with
  | accept_done i ec nodelay_ec =>
      match listeners w !! i with
      | Some l =>
          match accepting l with
          | O => None
          | S n =>
              Some (on_accept t i (target_endpoint l) ec nodelay_ec
                      (set_listeners (<[i := set_accepting n l]> (listeners w)) w))
          end
      | None => None
      end
  | session_done sid c =>
      match sessions w !! sid with
      | Some s =>
          match deliver t c s with
          | Some (s1, es) =>
              let '(w2, e2) :=
                drop_self sid (set_sessions (<[sid := s1]> (sessions w)) w) in
              Some (w2, tag (at_session sid) es ++ e2)
          | None => None
          end
      | None => None
      end
  end.

Fixpoint sys_run (cs : list (Z * sys_completion)) (w : TCPForwarder)
  : option (TCPForwarder * list sys_event) :=
  match cs with
  | [] => Some (w, [])
  | (t, c) :: rest =>
      match sys_deliver t c w with
      | Some (w1, e1) =>
          match sys_run rest w1 with
          | Some (w2, e2) => Some (w2, e1 ++ e2)
          | None => None
          end
      | None => None
      end
  end.

(** [TCPForwarder::start_con] for the [i]-th pair: bind the acceptor (a
    failure to bind throws and is not modelled) and start accepting. *)
Definition start_con (p : listener_pair) : Listener :=
  {| acceptor := fst p; target_endpoint := snd p; accepting := 1 |}.

(** [TCPForwarder::TCPForwarder]; [None] when a rule makes it throw.  The
    source can throw for reasons of the environment as well, which are not
    modelled: [make_address] on an address that is no literal, an acceptor
    that cannot be bound in [start_con], a configuration value that does
    not convert.  [Some] is what the constructor has built when it
    returns. *)
Definition TCPForwarder_ctor (cfg : ForwarderConfig) (forwarders : list ForwardRule)
  : option TCPForwarder :=
  match expand_forwarders forwarders with
  | Some pairs =>
      Some {| settings := cfg; active_connections_ := 0;
              listeners := map start_con pairs;
              sessions := ∅; next_session := 0 |}
  | None => None
  end.

(** ** HealthChecker, as [main] uses it *)

(** The [steady_timer] member and the interval. *)
Record HealthChecker := {
  hc_expiry : Z;                   (* timer_: expiry time *)
  hc_waiting : bool;               (* timer_: a wait is outstanding *)
  interval_ : Z
}.

(** The part of the reactor the health checker touches: the object while it
    is in scope, the handlers of cancelled waits that are queued with
    [operation_aborted], and the log calls made so far. *)
Record health := {
  checker : option HealthChecker;
  cancelled : nat;
  health_log : list event
}.

Definition heartbeat : event :=
  ev_log INFO (text "Health check: System is operational").

(** [HealthChecker::schedule_check] at time [t]: [expires_after] cancels a
    wait that is outstanding, then [async_wait] issues a new one. *)
Definition schedule_check (t : Z) (hc : HealthChecker) (h : health) : health :=
  {| checker := Some {| hc_expiry := t + interval_ hc; hc_waiting := true;
                        interval_ := interval_ hc |};
     cancelled := if hc_waiting hc then S (cancelled h) else cancelled h;
     health_log := health_log h |}.

(** The handler of [timer_.async_wait] in [schedule_check].  With an error
    code it touches nothing; without one the object is in scope, since a
    timer that is gone has no wait left that could succeed. *)
Definition on_check (t : Z) (ec : error_code) (h : health) : health :=
  if negb (is_error ec) then
    match checker h with
    | Some hc =>
        schedule_check t hc
          {| checker := checker h; cancelled := cancelled h;
             health_log := health_log h ++ [heartbeat] |}
    | None => h
    end
  else h.

(** [HealthChecker::start] on a new object. *)
Definition health_start (t interval : Z) : health :=
  schedule_check t {| hc_expiry := t; hc_waiting := false; interval_ := interval |}
    {| checker := None; cancelled := 0;
       health_log := [ev_log TRACE (text "Starting health checks...")] |}.

(** The object goes out of scope: [~steady_timer] cancels the wait that is
    outstanding, whose handler is queued with [operation_aborted]. *)
Definition health_dtor (h : health) : health :=
  match checker h with
  | Some hc =>
      {| checker := None;
         cancelled := if hc_waiting hc then S (cancelled h) else cancelled h;
         health_log := health_log h |}
  | None => h
  end.

(** [if (health_check_enabled) { HealthChecker health_checker(...);
    health_checker.start(); }] in [main], executed at time [t]. *)
Definition main_health_check (t : Z) (health_check_enabled : bool)
    (health_check_interval : Z) : health :=
  if health_check_enabled then health_dtor (health_start t health_check_interval)
  else {| checker := None; cancelled := 0; health_log := [] |}.

(** The reactor at time [t]: run the queued handlers of cancelled waits,
    then the handler of the wait if it has expired. *)
Definition poll (t : Z) (h : health) : health :=
  let h1 := Nat.iter (cancelled h) (on_check t operation_aborted)
              {| checker := checker h; cancelled := 0; health_log := health_log h |} in
  match checker h1 with
  | Some hc =>
      if hc_waiting hc && (hc_expiry hc <=? t) then
        on_check t success
          {| checker := Some {| hc_expiry := hc_expiry hc; hc_waiting := false;
                                interval_ := interval_ hc |};
             cancelled := cancelled h1; health_log := health_log h1 |}
      else h1
  | None => h1
  end.

(** [io_context.run()] observed at the times [ticks]. *)
Definition io_context_run (ticks : list Z) (h : health) : health :=
  fold_left (fun h t => poll t h) ticks h.

(** ** Reading traces *)

(** The number of entries of a trace that satisfy a test. *)
Fixpoint count {A : Type} (f : A -> bool) (l : list A) : nat :=
  match l with
  | [] => O
  | x :: rest => if f x then S (count f rest) else count f rest
  end.

Definition is_heartbeat (e : event) : bool :=
  match e with
  | ev_log INFO (text s) => String.eqb s "Health check: System is operational"
  | _ => false
  end.

Definition heartbeats (h : health) : nat := count is_heartbeat (health_log h).

Definition increments (e : event) : bool :=
  match e with ev_increment _ => true | _ => false end.

Definition decrements (e : event) : bool :=
  match e with ev_decrement _ => true | _ => false end.

Definition from_session (sid : nat) (x : sys_event) : bool :=
  bool_decide (fst x = at_session sid).

(** Sessions constructed and destroyed, as the trace of the forwarder
    records them: every constructor increments and every destructor
    decrements the shared counter. *)
Definition created (tr : list sys_event) : nat :=
  count (fun x => increments (snd x)) tr.

Definition destroyed (tr : list sys_event) : nat :=
  count (fun x => decrements (snd x)) tr.

Definition created_at (sid : nat) (tr : list sys_event) : nat :=
  count (fun x => from_session sid x && increments (snd x)) tr.

Definition destroyed_at (sid : nat) (tr : list sys_event) : nat :=
  count (fun x => from_session sid x && decrements (snd x)) tr.

(** ** Invariants of the forwarder *)

(** The state of the forwarder agrees with its trace.  [running] names the
    session whose handler is on the stack, which may have nothing
    outstanding until [drop_self] looks at it. *)
Record consistent (running : option nat) (w : TCPForwarder) (tr : list sys_event)
  : Prop := {
  cons_size : active_connections_ w = Z.of_nat (size (sessions w));
  cons_trace : Z.of_nat (created tr) - Z.of_nat (destroyed tr) = active_connections_ w;
  cons_bound : active_connections_ w <= Z.max 0 (max_connections (settings w));
  cons_live : forall sid s, sessions w !! sid = Some s ->
      (sid < next_session w)%nat /\ (running <> Some sid -> outstanding s <> []);
  cons_created : forall sid,
      created_at sid tr = if decide (sid < next_session w)%nat then 1%nat else 0%nat;
  cons_destroyed : forall sid,
      destroyed_at sid tr =
        if decide ((sid < next_session w)%nat /\ sessions w !! sid = None)
        then 1%nat else 0%nat
}.

(** Inbound connections the accept handler received without an error, and
    those it closed at once. *)
Definition accepted (cs : list (Z * sys_completion)) : nat :=
  count (fun x => match snd x with
                  | accept_done _ ec _ => negb (is_error ec)
                  | session_done _ _ => false
                  end) cs.

Definition rejects (e : event) : bool :=
  match e with ev_reject => true | _ => false end.

Definition rejected (tr : list sys_event) : nat :=
  count (fun x => rejects (snd x)) tr.

(** The times at which the session issued a connect attempt. *)
Fixpoint connect_times (tr : list event) : list Z :=
  match tr with
  | [] => []
  | ev_connect t :: rest => t :: connect_times rest
  | _ :: rest => connect_times rest
  end.

(** Consecutive entries are at least [d] apart. *)
Fixpoint separated (d : Z) (l : list Z) : Prop :=
  match l with
  | [] => True
  | t1 :: rest =>
      match rest with
      | [] => True
      | t2 :: _ => t1 + d <= t2
      end /\ separated d rest
  end.

(** What only [plz_forward] and the copy loops do: issue a read or a write. *)
Definition forwards (e : event) : bool :=
  match e with
  | ev_read _ | ev_write _ _ => true
  | _ => false
  end.

(** A target that cannot be reached: every connect attempt ends in an error. *)
Definition connect_fails (x : Z * completion) : bool :=
  match snd x with
  | connect_done ec _ => is_error ec
  | _ => true
  end.

(** The bytes successive reads took from a socket, and the bytes successive
    writes passed on to a socket, in order. *)
Fixpoint received (r : socket_ref) (tr : list event) : list Byte.byte :=
  match tr with
  | [] => []
  | ev_received r' data :: rest =>
      if decide (r' = r) then data ++ received r rest else received r rest
  | _ :: rest => received r rest
  end.

Fixpoint delivered (r : socket_ref) (tr : list event) : list Byte.byte :=
  match tr with
  | [] => []
  | ev_delivered r' data :: rest =>
      if decide (r' = r) then data ++ delivered r rest else delivered r rest
  | _ :: rest => delivered r rest
  end.

(** Closes that found the socket open, and calls of [close_sockets]. *)
Definition closes (r : socket_ref) (e : event) : bool :=
  match e with
  | ev_close r' true => bool_decide (r' = r)
  | _ => false
  end.

Definition tears_down (e : event) : bool :=
  match e with
  | ev_log INFO (text s) => String.eqb s "Sockets closed"
  | _ => false
  end.

(** The two copy loops [plz_forward] starts: source, destination, buffer. *)
Definition directions : list (socket_ref * socket_ref * buffer_ref) :=
  [(in_socket, out_socket, data_in); (out_socket, in_socket, data_out)].

(** A session that has connected, with buffers of the given size: both
    reads are outstanding.  On a buffer of size 0 a read completes with no
    bytes and no error. *)
Definition forwarding_session (buffer_size : nat) : option (Session * list event) :=
  let '(s1, e1) :=
    started 0 {| address := "10.0.0.1"; port := 9090 |} buffer_size true 3 2 in
  match run [(1, connect_done success success)] s1 with
  | Some (s2, e2) => Some (s2, e1 ++ e2)
  | None => None
  end.

(** ** Invariants of a session *)

(** A session that has met nothing but failed connect attempts, after [k]
    completions: it waits for a connect, or for the timer, or it has given
    up.  The last attempt lies behind the clock, and at least a full delay
    behind the expiry of the timer. *)
Definition connecting (k : Z) (s : Session) (tr : list event) : Prop :=
  let n := retry_attempts_ s in
  let d := retry_delay_ s in
  let ts := connect_times tr in
  let a := current_attempt_ s in
  separated d ts /\ count forwards tr = O /\
  ((outstanding s = [async_connect] /\ 0 <= a < n /\
    Z.of_nat (length ts) = a + 1 /\ k = 2 * a /\
    exists tl, last ts = Some tl /\ tl <= now s)
   \/
   (outstanding s = [async_wait] /\ 1 <= a <= n /\
    Z.of_nat (length ts) = a /\ k = 2 * a - 1 /\
    exists tl, last ts = Some tl /\ tl + d <= timer_ s)
   \/
   (outstanding s = [] /\ a = n /\ Z.of_nat (length ts) = n /\ k = 2 * n)).

(** The copy loop an operation belongs to. *)
Definition loop_of (o : op) : option (socket_ref * socket_ref * buffer_ref) :=
  match o with
  | async_read_some a b c | async_write a b c _ => Some (a, b, c)
  | _ => None
  end.

(** The outstanding operations of one copy loop. *)
Definition ops_of (d : socket_ref * socket_ref * buffer_ref) (l : list op) : list op :=
  filter (fun o => loop_of o = Some d) l.

(** One copy loop: nothing is outstanding (the loop has not started or has
    stopped), or its read alone, and all bytes read have been passed on,
    or one write alone, and the bytes read are those passed on followed by
    the bytes of this write. *)
Definition copy_loop_ok (s : Session) (tr : list event)
    (d : socket_ref * socket_ref * buffer_ref) : Prop :=
  let '(source, destination, buffer) := d in
  delivered destination tr `prefix_of` received source tr /\
  (ops_of d (outstanding s) = []
   \/ (ops_of d (outstanding s) = [async_read_some source destination buffer] /\
       delivered destination tr = received source tr)
   \/ (exists n, ops_of d (outstanding s) = [async_write source destination buffer n] /\
                 received source tr
                 = delivered destination tr ++ take n (get_buffer buffer s))).

(** An operation of one of the two copy loops. *)
Definition copy_op (o : op) : Prop :=
  exists d, d ∈ directions /\ loop_of o = Some d.

(** The whole life of a session: it is connecting, with the inbound
    socket open, nothing closed and nothing relayed, or it is forwarding,
    where only operations of the copy loops are outstanding and each
    socket has been closed once if it is closed at all. *)
Definition lifecycle (s : Session) (tr : list event) : Prop :=
  Forall (copy_loop_ok s tr) directions /\
  ((* connecting *)
   (in_socket_ s = true /\
    count (closes in_socket) tr = O /\ count (closes out_socket) tr = O /\
    count tears_down tr = O /\
    (forall r, received r tr = [] /\ delivered r tr = []) /\
    (outstanding s = [] \/
     (outstanding s = [async_connect] /\ out_socket_ s = true) \/
     outstanding s = [async_wait]))
   \/
   (* forwarding *)
   (Forall copy_op (outstanding s) /\
    (forall r, count (closes r) tr = if get_socket r s then O else 1%nat) /\
    (count tears_down tr <> O -> in_socket_ s = false /\ out_socket_ s = false))).


(** ** Sessions inside the forwarder *)

(** The events of one session, in order. *)
Fixpoint session_trace (sid : nat) (tr : list sys_event) : list event :=
  match tr with
  | [] => []
  | (o, e) :: rest =>
      if decide (o = at_session sid) then e :: session_trace sid rest
      else session_trace sid rest
  end.



(** ** A worked scenario

    One rule, 127.0.0.1:8080 to 127.0.0.1:9090, with a buffer of 4 bytes
    and room for one connection.  Client A connects and sends "ABCDE";
    client B connects meanwhile; then A's stream ends and the target
    resets its side. *)

Definition demo_config : ForwarderConfig :=
  {| buffer_size := 4; tcp_no_delay := true; retry_attempts := 3;
     retry_delay := 2; max_connections := 1 |}.

Definition demo_forwarders : list ForwardRule :=
  [{| listen_address := "127.0.0.1"; target_address := "127.0.0.1";
      port_range := None; listen_port := Some 8080; target_port := Some 9090 |}].

Definition demo_listening : TCPForwarder :=
  {| settings := demo_config; active_connections_ := 0;
     listeners := [{| acceptor := {| address := "127.0.0.1"; port := 8080 |};
                      target_endpoint := {| address := "127.0.0.1"; port := 9090 |};
                      accepting := 1 |}];
     sessions := ∅; next_session := 0 |}.

Definition bytes_ABCD : list Byte.byte := [Byte.x41; Byte.x42; Byte.x43; Byte.x44].
Definition bytes_E : list Byte.byte := [Byte.x45].

(** Client A is let in and connected. *)
Definition demo_first_client : list (Z * sys_completion) :=
  [(0, accept_done 0 success success);
   (1, session_done 0 (connect_done success success))].

Definition demo_run : list (Z * sys_completion) :=
  demo_first_client ++
  [(2, accept_done 0 success success);
   (3, session_done 0 (read_done in_socket out_socket data_in success bytes_ABCD));
   (4, session_done 0 (write_done in_socket out_socket data_in 4 success 4));
   (5, session_done 0 (read_done in_socket out_socket data_in success bytes_E));
   (6, session_done 0 (write_done in_socket out_socket data_in 1 success 1));
   (7, session_done 0 (read_done in_socket out_socket data_in (failure 2) []));
   (8, session_done 0 (read_done out_socket in_socket data_out (failure 104) []))].

(** The same rule with no room at all, and three accepts. *)
Definition demo_config_zero : ForwarderConfig :=
  {| buffer_size := 4; tcp_no_delay := true; retry_attempts := 3;
     retry_delay := 2; max_connections := 0 |}.

Definition demo_closed_door : TCPForwarder :=
  {| settings := demo_config_zero; active_connections_ := 0;
     listeners := listeners demo_listening; sessions := ∅; next_session := 0 |}.

Definition demo_knocks : list (Z * sys_completion) :=
  [(0, accept_done 0 success success);
   (1, accept_done 0 (failure 24) success);
   (2, accept_done 0 success success)].

(** A session with two attempts, two seconds apart, whose target refuses. *)
Definition demo_target : endpoint := {| address := "127.0.0.1"; port := 9090 |}.

Definition demo_refused : list (Z * completion) :=
  [(1, connect_done (failure 111) success);
   (3, wait_done success);
   (4, connect_done (failure 111) success);
   (7, wait_done success)].

(** A session that has relayed "ABCD" and has "E" in flight. *)
Definition demo_relay : list (Z * completion) :=
  [(1, connect_done success success);
   (3, read_done in_socket out_socket data_in success bytes_ABCD);
   (4, write_done in_socket out_socket data_in 4 success 4);
   (5, read_done in_socket out_socket data_in success bytes_E)].

(** The expiry times [t + interval], [t + 2 * interval], ... *)
Definition expiries (t interval : Z) (k : nat) : list Z :=
  map (fun j => t + Z.of_nat j * interval) (seq 1 k).

(** The ticks of the reactor at which a timer that expires at [e] is found
    expired, when every such tick sets the timer [interval] on from that
    tick, as [schedule_check] does. *)
Fixpoint beats_at (e interval : Z) (ticks : list Z) : list Z :=
  match ticks with
  | [] => []
  | T :: rest =>
      if e <=? T then T :: beats_at (T + interval) interval rest
      else beats_at e interval rest
  end.

(** ** Logger *)

Module Logger.

(** The order of [enum class LogLevel], which [must_log] compares. *)
Definition rank (l : LogLevel) : nat :=
  match l with
  | TRACE => 0 | DEBUG => 1 | INFO => 2 | WARN => 3 | ERROR => 4 | ALL => 5
  end.

(** The chain of [if (level == "...")] in the constructor. *)
Definition level_of_name (level : string) : LogLevel :=
  if String.eqb level "TRACE" then TRACE
  else if String.eqb level "DEBUG" then DEBUG
  else if String.eqb level "INFO" then INFO
  else if String.eqb level "WARN" then WARN
  else if String.eqb level "ERROR" then ERROR
  else ALL.

(** [logfile_] holds the entries this logger has written (the file is
    opened for appending); [worker_thread_] tells whether the worker
    exists and has not left its loop. *)
Record state := {
  enabled_ : bool;
  logfile_ : list string;
  log_queue_ : list string;
  worker_thread_ : bool;
  stop_worker_ : bool;
  log_level_ : LogLevel
}.

(** [Logger::Logger]; [opened] is whether [logfile_.open] succeeded. *)
Definition ctor (enabled : bool) (file level : string) (opened : bool) : state :=
  let enabled' := if enabled then opened else false in
  {| enabled_ := enabled'; logfile_ := []; log_queue_ := [];
     worker_thread_ := enabled'; stop_worker_ := false;
     log_level_ := level_of_name level |}.

(** [Logger::must_log] *)
Definition must_log (l : state) (msg_level : LogLevel) : bool :=
  (rank (log_level_ l) <=? rank msg_level)%nat
  || match log_level_ l with ALL => true | _ => false end.

Definition newline : string := String (Ascii.ascii_of_nat 10) EmptyString.

(** The line [log] builds; [time] is what [std::put_time] prints. *)
Definition entry (time level message : string) : string :=
  ("[" ++ time ++ "] " ++ "[" ++ level ++ "] " ++ message ++ newline)%string.

(** [Logger::log] at a moment whose formatted time is [time]. *)
Definition log (level message : string) (msg_level : LogLevel) (time : string)
    (l : state) : state :=
  if enabled_ l && must_log l msg_level then
    {| enabled_ := enabled_ l; logfile_ := logfile_ l;
       log_queue_ := log_queue_ l ++ [entry time level message];
       worker_thread_ := worker_thread_ l; stop_worker_ := stop_worker_ l;
       log_level_ := log_level_ l |}
  else l.

Definition trace (message : string) := log "TRACE" message TRACE.
Definition debug (message : string) := log "DEBUG" message DEBUG.
Definition info (message : string) := log "INFO" message INFO.
Definition warn (message : string) := log "WARN" message WARN.
Definition error (message : string) := log "ERROR" message ERROR.

(** One turn of the loop of [Logger::process_queue], from the wait on the
    condition variable: the worker sleeps on while the queue is empty and
    no stop is requested; otherwise it writes the whole queue to the file,
    front first, and leaves the loop if a stop is requested.  The worker
    holds the mutex for the whole turn, and [log] takes it to enqueue, so a
    turn is one step. *)
Definition process_queue (l : state) : state :=
  if worker_thread_ l then
    match log_queue_ l, stop_worker_ l with
    | [], false => l
    | q, stop =>
        {| enabled_ := enabled_ l; logfile_ := logfile_ l ++ q;
           log_queue_ := [];
           worker_thread_ := negb stop; stop_worker_ := stop;
           log_level_ := log_level_ l |}
    end
  else l.

(** [Logger::~Logger]: ask the worker to stop and join it. *)
Definition dtor (l : state) : state :=
  if enabled_ l then
    process_queue
      {| enabled_ := enabled_ l; logfile_ := logfile_ l;
         log_queue_ := log_queue_ l;
         worker_thread_ := worker_thread_ l; stop_worker_ := true;
         log_level_ := log_level_ l |}
  else l.

(** What happens to a logger between construction and destruction: calls
    of [log] from any thread, and turns of the worker, in any order. *)
Inductive action :=
| call (level message : string) (msg_level : LogLevel) (time : string)
| worker.

Definition step (l : state) (a : action) : state :=
  match a with
  | call level message msg_level time => log level message msg_level time l
  | worker => process_queue l
  end.

Definition run (acts : list action) (l : state) : state := fold_left step acts l.

(** The lines of the calls that pass the filter of [l], in call order. *)
Fixpoint passed (l : state) (acts : list action) : list string :=
  match acts with
  | [] => []
  | call level message msg_level time :: rest =>
      if enabled_ l && must_log l msg_level
      then entry time level message :: passed l rest
      else passed l rest
  | worker :: rest => passed l rest
  end.

End Logger.

(** ** Configuration: validation and defaults *)

Module YAML.

(** A [YAML::Node], as far as [validate_and_set_defaults] and [main] look
    at it.  A map keeps its entries in order; a lookup finds the first
    entry with the key. *)
#[warnings="-register-all"]
Inductive Node :=
| Undefined
| Null
| Scalar (s : string)
| Sequence (items : list Node)
| Map (entries : list (string * Node)).

(** [operator!] is [!IsDefined()]. *)
Definition IsDefined (n : Node) : bool :=
  match n with Undefined => false | _ => true end.

Definition IsSequence (n : Node) : bool :=
  match n with Sequence _ => true | _ => false end.

Fixpoint find (key : string) (entries : list (string * Node)) : Node :=
  match entries with
  | [] => Undefined
  | (k, v) :: rest => if String.eqb k key then v else find key rest
  end.

(** [node["key"]]: the entry of a map, an undefined node where there is no
    such entry or the node is not a map; on a scalar the library throws
    (here [None]). *)
Definition get (key : string) (n : Node) : option Node :=
  match n with
  | Map entries => Some (find key entries)
  | Scalar _ => None
  | _ => Some Undefined
  end.

Fixpoint replace (key : string) (v : Node) (entries : list (string * Node))
  : list (string * Node) :=
  match entries with
  | [] => [(key, v)]
  | (k, x) :: rest =>
      if String.eqb k key then (k, v) :: rest else (k, x) :: replace key v rest
  end.

(** [node["key"] = v]: the first entry with the key is overwritten, or a
    new entry is appended. *)
Definition set (key : string) (v : Node) (n : Node) : Node :=
  match n with
  | Map entries => Map (replace key v entries)
  | _ => Map [(key, v)]
  end.

End YAML.

(** What a function that may throw ends with. *)
Inductive outcome (A : Type) :=
| returned (a : A)
| runtime_error (what : string)
| BadSubscript.

Arguments returned {A} a.
Arguments runtime_error {A} what.
Arguments BadSubscript {A}.

(** [!config[key]]; [None] when the subscript throws. *)
Definition missing (key : string) (config : YAML.Node) : option bool :=
  match YAML.get key config with
  | Some n => Some (negb (YAML.IsDefined n))
  | None => None
  end.

(** [!config[group] || !config[group][key1] || ...], evaluated from the
    left and no further than needed. *)
Fixpoint group_missing (group : YAML.Node) (keys : list string) : option bool :=
  match keys with
  | [] => Some false
  | key :: rest =>
      match missing key group with
      | Some true => Some true
      | Some false => group_missing group rest
      | None => None
      end
  end.

Definition incomplete (group : string) (keys : list string) (config : YAML.Node)
  : option bool :=
  match YAML.get group config with
  | Some g => if YAML.IsDefined g then group_missing g keys else Some true
  | None => None
  end.

(** [if (!config[key]) { config[key] = value; }] *)
Definition set_default (key value : string) (config : YAML.Node) : option YAML.Node :=
  match missing key config with
  | Some true => Some (YAML.set key (YAML.Scalar value) config)
  | Some false => Some config
  | None => None
  end.

(** [validate_and_set_defaults]: the configuration as the function leaves
    it, or the exception it throws. *)
Definition validate_and_set_defaults (config : YAML.Node) : outcome YAML.Node :=
  match YAML.get "forwarders" config with
  | None => BadSubscript
  | Some f =>
  if negb (YAML.IsDefined f) || negb (YAML.IsSequence f) then
    runtime_error "Error: 'forwarders' must be specified and must be a list."
  else
  match incomplete "thread_pool" ["threads"] config with
  | None => BadSubscript
  | Some true => runtime_error "Error: 'thread_pool.threads' must be specified."
  | Some false =>
  match set_default "buffer_size" "8192" config with
  | None => BadSubscript
  | Some c1 =>
  match set_default "tcp_no_delay" "true" c1 with
  | None => BadSubscript
  | Some c2 =>
  match set_default "retry_attempts" "3" c2 with
  | None => BadSubscript
  | Some c3 =>
  match set_default "retry_delay" "2" c3 with
  | None => BadSubscript
  | Some c4 =>
  match set_default "max_connections" "100" c4 with
  | None => BadSubscript
  | Some c5 =>
  match incomplete "logging" ["enabled"; "file"] c5 with
  | None => BadSubscript
  | Some true =>
      runtime_error "Error: 'logging.enabled' and 'logging.file' must be specified."
  | Some false =>
  match incomplete "health_check" ["enabled"; "interval"] c5 with
  | None => BadSubscript
  | Some true =>
      runtime_error
        "Error: 'health_check.enabled' and 'health_check.interval' must be specified."
  | Some false => returned c5
  end end end end end end end end end.

(** The keys the function fills in, with the values it gives them. *)
Definition defaults : list (string * string) :=
  [("buffer_size", "8192"); ("tcp_no_delay", "true"); ("retry_attempts", "3");
   ("retry_delay", "2"); ("max_connections", "100")].

(** The default the function gives a key, if it gives one. *)
Definition default_of (key : string) : option string :=
  match List.find (fun kv => String.eqb (fst kv) key) defaults with
  | Some kv => Some (snd kv)
  | None => None
  end.

(** [config[group][key]] is there: both subscripts work and the node they
    reach is defined. *)
Definition has (config : YAML.Node) (group key : string) : Prop :=
  exists g n, YAML.get group config = Some g /\ YAML.get key g = Some n /\
              YAML.IsDefined n = true.

(** [main] reads the arguments of the [Logger] from the validated
    configuration with [as<bool>()] and [as<std::string>()], which throw
    on a node they cannot convert ([None]).  The conversions are the
    library's. *)
Definition main_logger_arguments
    (as_bool : YAML.Node -> option bool) (as_string : YAML.Node -> option string)
    (config : YAML.Node) : option (bool * string * string) :=
  match YAML.get "logging" config with
  | Some logging =>
      match YAML.get "enabled" logging, YAML.get "file" logging,
            YAML.get "level" logging with
      | Some e, Some f, Some l =>
          match as_bool e, as_string f, as_string l with
          | Some logging_enabled, Some log_file, Some log_level =>
              Some (logging_enabled, log_file, log_level)
          | _, _, _ => None
          end
      | _, _, _ => None
      end
  | None => None
  end.

(** The example configuration that [help] prints. *)
Definition help_example : YAML.Node :=
  YAML.Map
    [("forwarders",
      YAML.Sequence
        [YAML.Map [("listen_address", YAML.Scalar "::");
                   ("listen_port", YAML.Scalar "8080");
                   ("target_address", YAML.Scalar "2001:db8::1");
                   ("target_port", YAML.Scalar "9090")]]);
     ("buffer_size", YAML.Scalar "8192");
     ("tcp_no_delay", YAML.Scalar "true");
     ("retry_attempts", YAML.Scalar "3");
     ("retry_delay", YAML.Scalar "2");
     ("max_connections", YAML.Scalar "100");
     ("thread_pool", YAML.Map [("threads", YAML.Scalar "4")]);
     ("logging", YAML.Map [("enabled", YAML.Scalar "true");
                           ("file", YAML.Scalar "logfile.log")]);
     ("health_check", YAML.Map [("enabled", YAML.Scalar "true");
                                ("interval", YAML.Scalar "10")])].

(** The least configuration the function accepts. *)
Definition least_config : YAML.Node :=
  YAML.Map
    [("forwarders", YAML.Sequence []);
     ("thread_pool", YAML.Map [("threads", YAML.Scalar "1")]);
     ("logging", YAML.Map [("enabled", YAML.Scalar "false");
                           ("file", YAML.Scalar "")]);
     ("health_check", YAML.Map [("enabled", YAML.Scalar "false");
                                ("interval", YAML.Scalar "1")])].

(** Conversions of scalars, enough to read the examples. *)
Definition scalar_as_string (n : YAML.Node) : option string :=
  match n with
  | YAML.Scalar s => Some s
  | YAML.Null => Some "null"%string
  | _ => None
  end.

Definition scalar_as_bool (n : YAML.Node) : option bool :=
  match n with
  | YAML.Scalar s =>
      if String.eqb s "true" then Some true
      else if String.eqb s "false" then Some false
      else None
  | _ => None
  end.

(** ** More readings of the code *)

(** The number of listeners a rule stands for: the ports of its range, or
    one. *)
Definition rule_size (f : ForwardRule) : nat :=
  match port_range f with
  | Some (start_port, end_port) => Z.to_nat (end_port - start_port + 1)
  | None => 1
  end.


(** Any call of [close] on a socket of a session. *)
Definition is_close (e : event) : bool :=
  match e with ev_close _ _ => true | _ => false end.

(** A session that has met nothing but failed connect attempts has closed
    nothing: the inbound socket is open, and the outbound one is open once
    a connect has been issued on it. *)
Definition untouched (s : Session) (tr : list event) : Prop :=
  in_socket_ s = true /\
  out_socket_ s = match connect_times tr with [] => false | _ :: _ => true end /\
  count is_close tr = O /\ count tears_down tr = O.

(** The bytes an event moves are no more than [n]. *)
Definition chunk_within (n : nat) (e : event) : Prop :=
  match e with
  | ev_received _ bytes | ev_write _ bytes | ev_delivered _ bytes =>
      (length bytes <= n)%nat
  | _ => True
  end.

(** The buffers of a session keep the size they were constructed with. *)
Definition buffers_sized (s : Session) : Prop :=
  length (data_in_ s) = buffer_size_ s /\ length (data_out_ s) = buffer_size_ s.

(** The attempt counter stays within its bounds, and is below
    [retry_attempts_] while a connect is outstanding. *)
Definition attempts_ok (s : Session) : Prop :=
  0 <= current_attempt_ s <= Z.max 0 (retry_attempts_ s) /\
  (outstanding s = [async_connect] -> current_attempt_ s < retry_attempts_ s).


(** A range the wrong way round, next to a single port. *)
Definition rule_backwards : ForwardRule :=
  {| listen_address := "0.0.0.0"; target_address := "10.0.0.1";
     port_range := Some (8002, 8000);
     listen_port := None; target_port := None |}.

(** A session that relays "ABCD" and then fails to write "E". *)
Definition demo_write_fails : list (Z * completion) :=
  demo_relay ++ [(6, write_done in_socket out_socket data_in 1 (failure 32) 0)].

(** ** Two handlers of one session at the same time

    [main] hands [io_context.run()] to the pool [thread_pool.threads]
    times, and nothing in the code, no strand and no mutex, keeps two
    handlers of one session apart.  Inside a handler these are the steps
    another thread can come between: a log call (the logger locks its
    queue) and the two halves of [socket.close(ec)], which looks whether
    the socket is open and then, if it was, closes the descriptor and
    marks the socket closed.  A socket has no lock of its own. *)
Inductive instr :=
| log_call (level : LogLevel) (m : message)
| is_open (r : socket_ref)         (* close(ec): is the socket open? *)
| close_seen (r : socket_ref).     (* close(ec): close what was seen open *)

(** A pool thread inside a handler: the steps it has still to take, and
    what its last look at a socket saw. *)
Record thread := { steps : list instr; saw_open : bool }.

Definition enter (code : list instr) : thread :=
  {| steps := code; saw_open := false |}.

(** [socket.close(ec)], step by step. *)
Definition close_steps (r : socket_ref) : list instr := [is_open r; close_seen r].

(** [Session::close_sockets], step by step. *)
Definition close_sockets_steps : list instr :=
  close_steps in_socket ++ close_steps out_socket ++
  [log_call INFO (text "Sockets closed")].


(** One step of a thread on the session it shares.  [ev_close r true]
    records that the thread closed a descriptor it had seen open. *)
Definition thread_step (th : thread) (s : Session) : thread * Session * list event :=
  match steps th with
  | [] => (th, s, [])
  | log_call level m :: rest =>
      ({| steps := rest; saw_open := saw_open th |}, s, [ev_log level m])
  | is_open r :: rest =>
      ({| steps := rest; saw_open := get_socket r s |}, s, [])
  | close_seen r :: rest =>
      ({| steps := rest; saw_open := saw_open th |},
       set_socket r false s, [ev_close r (saw_open th)])
  end.

(** Which of two threads takes the next step. *)
Inductive turn := thread_a | thread_b.

(** Two threads on one session, stepping as the schedule tells. *)
Fixpoint race (schedule : list turn) (a b : thread) (s : Session)
  : thread * thread * Session * list event :=
  match schedule with
  | [] => (a, b, s, [])
  | thread_a :: rest =>
      let '(a1, s1, e1) := thread_step a s in
      let '(a2, b2, s2, e2) := race rest a1 b s1 in
      (a2, b2, s2, e1 ++ e2)
  | thread_b :: rest =>
      let '(b1, s1, e1) := thread_step b s in
      let '(a2, b2, s2, e2) := race rest a b1 s1 in
      (a2, b2, s2, e1 ++ e2)
  end.

(** What a race leaves of the session, and what the two threads did. *)
Definition raced (schedule : list turn) (a b : list instr) : action :=
  fun s => let '(_, _, s', es) := race schedule (enter a) (enter b) s in (s', es).

(** One thread through all its steps, no other thread in between. *)
Definition alone (code : list instr) : action :=
  raced (repeat thread_a (length code)) code [].





(** ** Tactics *)

(** Unfold the handlers of a session down to the record updates. *)
Ltac unfold_handlers :=
  unfold deliver, complete, start, on_connect, on_wait, on_read, on_write,
    write_all, plz_forward, forward_data, close_sockets, close,
    set_no_delay_out, expires_after, attempt_connection, connect_out,
    logger_, emit, issue, and_then, skip in *.

(** Decide the [if decide _] of a goal from the hypotheses. *)
Ltac solve_decide :=
  repeat case_decide; destruct_and?; simplify_eq;
  first
    [ lia
    | done
    | exfalso;
      match goal with
      | H : ~ _ |- _ => apply H; repeat split; first [lia | done | congruence]
      end ].

Ltac split_cases := repeat (case_match; simplify_eq/=).

(** * Properties *)

(** ** Machine integers *)

Lemma wrap_in_range z : Int.in_range z -> Int.wrap z = z.
Proof.
  unfold Int.in_range, Int.wrap, Int.INT_MIN, Int.INT_MAX. intros Hz.
  rewrite Z.mod_small by lia. lia.
Qed.

Lemma to_port_small z : 0 <= z < 65536 -> Int.to_port z = z.
Proof. intros Hz. unfold Int.to_port. now rewrite Z.mod_small. Qed.

(** ** Expansion of port ranges *)

Lemma range_loop_length fuel la ta p e ps :
  range_loop fuel la ta p e = Some ps ->
  Z.of_nat (length ps) = Z.max 0 (e - p + 1).
Proof.
  revert p ps. induction fuel as [|fuel IH]; intros p ps; simpl.
  - destruct (Z.leb_spec p e); [discriminate|].
    intros [= <-]. simpl. lia.
  - destruct (Z.leb_spec p e).
    + destruct (Z.eqb_spec p Int.INT_MAX); [discriminate|].
      destruct (range_loop fuel la ta (p + 1) e) as [rest|] eqn:Hrest; [|discriminate].
      intros [= <-]. apply IH in Hrest. simpl length. lia.
    + intros [= <-]. simpl. lia.
Qed.

Lemma range_loop_total fuel la ta p e :
  e < Int.INT_MAX -> (Z.to_nat (e - p + 1) <= fuel)%nat ->
  is_Some (range_loop fuel la ta p e).
Proof.
  intros He. revert p. induction fuel as [|fuel IH]; intros p Hfuel; simpl.
  - destruct (Z.leb_spec p e); [lia|]. by eexists.
  - destruct (Z.leb_spec p e); [|by eexists].
    destruct (Z.eqb_spec p Int.INT_MAX); [lia|].
    destruct (IH (p + 1)) as [rest ->]; [lia|]. by eexists.
Qed.

Lemma range_loop_lookup fuel la ta p e ps (i : nat) :
  range_loop fuel la ta p e = Some ps ->
  (i < length ps)%nat ->
  ps !! i = Some (tcp_endpoint la (p + Z.of_nat i), tcp_endpoint ta (p + Z.of_nat i)).
Proof.
  revert p ps i. induction fuel as [|fuel IH]; intros p ps i; simpl.
  - destruct (p <=? e); [discriminate|]. intros [= <-]. simpl. lia.
  - destruct (p <=? e); [|intros [= <-]; simpl; lia].
    destruct (p =? Int.INT_MAX); [discriminate|].
    destruct (range_loop fuel la ta (p + 1) e) as [rest|] eqn:Hrest; [|discriminate].
    intros [= <-] Hi. destruct i as [|i]; simpl.
    + by rewrite Z.add_0_r.
    + simpl in Hi. etrans; [apply (IH _ _ i Hrest); lia|].
      do 3 f_equal; lia.
Qed.

(** C1, as the code has it: a rule with the port range [start, end] of
    valid ports yields exactly [end - start + 1] listeners, and the one at
    offset [i] listens on port [start + i] and forwards to the same port
    number [start + i] on the target address; no target base port enters
    the expansion. *)
Theorem range_expansion_same_port (f : ForwardRule) (start_port end_port : Z) :
  port_range f = Some (start_port, end_port) ->
  0 <= start_port -> start_port <= end_port -> end_port <= 65535 ->
  exists ps : list listener_pair,
    expand_forwarder f = Some ps /\
    Z.of_nat (length ps) = end_port - start_port + 1 /\
    forall i : nat, (i < length ps)%nat ->
      ps !! i = Some ({| address := listen_address f; port := start_port + Z.of_nat i |},
                      {| address := target_address f; port := start_port + Z.of_nat i |}).
Proof.
  intros Hrange H0 Hle Hmax. unfold expand_forwarder. rewrite Hrange.
  destruct (range_loop_total (Z.to_nat (end_port - start_port + 1))
              (listen_address f) (target_address f) start_port end_port)
    as [ps Hps]; [unfold Int.INT_MAX; lia | lia |].
  exists ps. split; [done|].
  pose proof (range_loop_length _ _ _ _ _ _ Hps) as Hlen.
  split; [lia|]. intros i Hi.
  rewrite (range_loop_lookup _ _ _ _ _ _ i Hps Hi).
  unfold tcp_endpoint. rewrite !to_port_small by lia. done.
Qed.

Lemma range_expansion_same_port_witness :
  exists ps : list listener_pair,
    expand_forwarder rule_8000_8002 = Some ps /\
    Z.of_nat (length ps) = 8002 - 8000 + 1 /\
    forall i : nat, (i < length ps)%nat ->
      ps !! i = Some ({| address := "0.0.0.0"; port := 8000 + Z.of_nat i |},
                      {| address := "10.0.0.1"; port := 8000 + Z.of_nat i |}).
Proof.
  apply (range_expansion_same_port rule_8000_8002 8000 8002); [reflexivity|lia|lia|lia].
Defined.

(** C1 as stated fails on the spec's own example: the range [8000, 8002]
    with target port 9000 forwards 8000 to 8000, 8001 to 8001 and 8002 to
    8002, not to 9000, 9001 and 9002. *)
Lemma range_expansion_counterexample :
  port_range rule_8000_8002 = Some (8000, 8002) /\
  target_port rule_8000_8002 = Some 9000 /\
  option_map (map ports_of) (expand_forwarder rule_8000_8002)
    = Some [(8000, 8000); (8001, 8001); (8002, 8002)] /\
  option_map (map ports_of) (expand_forwarder rule_8000_8002)
    <> Some [(8000, 9000); (8001, 9001); (8002, 9002)].
Proof. repeat split; discriminate. Qed.

(** ** The health checker *)

Lemma count_app {A : Type} (f : A -> bool) (l1 l2 : list A) :
  count f (l1 ++ l2) = (count f l1 + count f l2)%nat.
Proof.
  induction l1 as [|x l1 IH]; simpl; [done|].
  destruct (f x); simpl; by rewrite IH.
Qed.

Lemma iter_on_check_aborted n t h :
  Nat.iter n (on_check t operation_aborted) h = h.
Proof. induction n as [|n IH]; simpl; [done|]. by rewrite IH. Qed.

Lemma poll_out_of_scope t h :
  checker h = None ->
  checker (poll t h) = None /\ cancelled (poll t h) = O /\
  health_log (poll t h) = health_log h.
Proof.
  intros Hc. unfold poll. rewrite iter_on_check_aborted.
  destruct h as [c n l]. simpl in *. by subst c.
Qed.

Lemma io_context_run_out_of_scope ticks h :
  checker h = None ->
  health_log (io_context_run ticks h) = health_log h.
Proof.
  revert h. induction ticks as [|t ticks IH]; intros h Hc; simpl; [done|].
  destruct (poll_out_of_scope t h Hc) as (Hc' & _ & Hlog).
  unfold io_context_run in IH. rewrite IH by done. done.
Qed.

Lemma io_context_run_snoc ticks t h :
  io_context_run (ticks ++ [t]) h = poll t (io_context_run ticks h).
Proof. unfold io_context_run. by rewrite fold_left_app. Qed.

(** While the object stays in scope, the class does what it is written
    for: one heartbeat per expiry, each followed by a new wait. *)
Lemma HealthChecker_beats_in_scope (t interval : Z) (k : nat) :
  0 <= interval ->
  let h := io_context_run (expiries t interval k) (health_start t interval) in
  heartbeats h = k /\
  cancelled h = O /\
  checker h = Some {| hc_expiry := t + Z.of_nat (S k) * interval;
                      hc_waiting := true; interval_ := interval |}.
Proof.
  intros Hi. induction k as [|k IH].
  - simpl. repeat split. do 2 f_equal. lia.
  - unfold expiries in *. rewrite seq_S, map_app. simpl map.
    rewrite io_context_run_snoc.
    set (h := io_context_run _ _) in *. simpl in IH.
    destruct IH as (Hb & Hc & Hk).
    unfold poll. rewrite Hc. simpl. rewrite Hk. simpl.
    destruct (Z.leb_spec (t + Z.of_nat (S k) * interval) (t + Z.of_nat (S k) * interval));
      [|lia].
    unfold on_check. simpl. unfold heartbeats in *. simpl.
    rewrite count_app, Hb. simpl. repeat split; [lia|].
    do 2 f_equal. lia.
Qed.

(** C8 fails on the code: [main] declares the [HealthChecker] inside the
    block of the [if], so it is destroyed at the closing brace, before
    [io_context.run()]; its timer cancels the wait, the handler runs with
    [operation_aborted], and no heartbeat is ever logged, whatever the
    interval and however long the reactor runs. *)
Theorem main_health_check_never_beats (t interval : Z) (ticks : list Z) :
  heartbeats (io_context_run ticks (main_health_check t true interval)) = O /\
  checker (main_health_check t true interval) = None /\
  cancelled (main_health_check t true interval) = 1%nat.
Proof.
  repeat split. unfold heartbeats.
  rewrite io_context_run_out_of_scope; done.
Qed.

(** ** Events of the session handlers *)

Lemma count_tag (f : sys_event -> bool) (o : origin) (es : list event) :
  count f (tag o es) = count (fun e => f (o, e)) es.
Proof.
  induction es as [|e es IH]; simpl; [done|]. by rewrite IH.
Qed.

Lemma count_none {A : Type} (f : A -> bool) (l : list A) :
  (forall x, f x = false) -> count f l = O.
Proof.
  intros Hf. induction l as [|x l IH]; simpl; [done|]. by rewrite Hf.
Qed.

Lemma count_ext {A : Type} (f g : A -> bool) (l : list A) :
  (forall x, f x = g x) -> count f l = count g l.
Proof.
  intros Hfg. induction l as [|x l IH]; simpl; [done|]. by rewrite Hfg, IH.
Qed.

(** The handlers of a session never touch the shared counter. *)
Lemma start_quiet s s' es :
  start s = (s', es) -> count increments es = O /\ count decrements es = O.
Proof. intros H. unfold_handlers. split_cases; done. Qed.

Lemma deliver_quiet t c s s' es :
  deliver t c s = Some (s', es) ->
  count increments es = O /\ count decrements es = O.
Proof. intros H. unfold_handlers. split_cases; done. Qed.

Lemma created_app tr1 tr2 : created (tr1 ++ tr2) = (created tr1 + created tr2)%nat.
Proof. apply count_app. Qed.

Lemma destroyed_app tr1 tr2 : destroyed (tr1 ++ tr2) = (destroyed tr1 + destroyed tr2)%nat.
Proof. apply count_app. Qed.

Lemma created_at_app sid tr1 tr2 :
  created_at sid (tr1 ++ tr2) = (created_at sid tr1 + created_at sid tr2)%nat.
Proof. apply count_app. Qed.

Lemma destroyed_at_app sid tr1 tr2 :
  destroyed_at sid (tr1 ++ tr2) = (destroyed_at sid tr1 + destroyed_at sid tr2)%nat.
Proof. apply count_app. Qed.

Lemma created_tag o es : created (tag o es) = count increments es.
Proof. unfold created. by rewrite count_tag. Qed.

Lemma destroyed_tag o es : destroyed (tag o es) = count decrements es.
Proof. unfold destroyed. by rewrite count_tag. Qed.

Lemma created_at_tag sid sid' es :
  created_at sid (tag (at_session sid') es)
  = if decide (sid' = sid) then count increments es else O.
Proof.
  unfold created_at, from_session. rewrite count_tag.
  destruct (decide (sid' = sid)) as [->|Hne].
  - apply count_ext. intros e. simpl. by rewrite bool_decide_eq_true_2.
  - apply count_none. intros e. simpl.
    rewrite bool_decide_eq_false_2; [done|congruence].
Qed.

Lemma destroyed_at_tag sid sid' es :
  destroyed_at sid (tag (at_session sid') es)
  = if decide (sid' = sid) then count decrements es else O.
Proof.
  unfold destroyed_at, from_session. rewrite count_tag.
  destruct (decide (sid' = sid)) as [->|Hne].
  - apply count_ext. intros e. simpl. by rewrite bool_decide_eq_true_2.
  - apply count_none. intros e. simpl.
    rewrite bool_decide_eq_false_2; [done|congruence].
Qed.

Lemma created_at_listener sid i es : created_at sid (tag (at_listener i) es) = O.
Proof.
  unfold created_at, from_session. rewrite count_tag. by apply count_none.
Qed.

Lemma destroyed_at_listener sid i es : destroyed_at sid (tag (at_listener i) es) = O.
Proof.
  unfold destroyed_at, from_session. rewrite count_tag. by apply count_none.
Qed.

Lemma Session_dtor_events s c c' es :
  Session_dtor s c = (c', es) ->
  c' = Int.wrap (c - 1) /\ count increments es = O /\ count decrements es = 1%nat.
Proof.
  unfold Session_dtor, socket_dtor. intros [= <- <-].
  simpl. destruct (out_socket_ s), (in_socket_ s); done.
Qed.

Lemma Session_ctor_events t tg b nd ra rd ec c s c' es :
  Session_ctor t tg b nd ra rd ec c = (s, c', es) ->
  s = Session_members t tg b nd ra rd /\ c' = Int.wrap (c + 1) /\
  count increments es = 1%nat /\ count decrements es = O.
Proof.
  unfold Session_ctor. intros [= <- <- <-]. destruct (is_error ec); by simpl.
Qed.

(** ** The counter and the live sessions *)

Lemma drop_self_consistent sid w tr w' es :
  max_connections (settings w) <= Int.INT_MAX ->
  consistent (Some sid) w tr ->
  drop_self sid w = (w', es) ->
  consistent None w' (tr ++ es) /\ settings w' = settings w /\
  listeners w' = listeners w.
Proof.
  intros Hmax [Hsize Htrace Hbound Hlive Hcr Hde]. unfold drop_self.
  destruct (sessions w !! sid) as [s|] eqn:Hsid.
  - destruct (outstanding s) as [|o rest] eqn:Hout.
    + destruct (Session_dtor s (active_connections_ w)) as [c ds] eqn:Hdtor.
      apply Session_dtor_events in Hdtor as (-> & Hinc & Hdec).
      intros [= <- <-]. split; [|done].
      assert (size (sessions w) <> O) as Hne.
      { apply map_size_non_empty_iff. intros Hempty. by rewrite Hempty in Hsid. }
      assert (Int.wrap (active_connections_ w - 1) = active_connections_ w - 1) as Hwrap.
      { apply wrap_in_range. unfold Int.in_range, Int.INT_MIN, Int.INT_MAX in *. lia. }
      split; simpl.
      * rewrite Hwrap, Hsize, map_size_delete_Some by eauto. lia.
      * rewrite created_app, destroyed_app, created_tag, destroyed_tag, Hinc, Hdec, Hwrap. lia.
      * rewrite Hwrap. lia.
      * intros sid' s'. destruct (decide (sid' = sid)) as [->|Hne'].
        -- by rewrite lookup_delete_eq.
        -- rewrite lookup_delete_ne by done. intros Hs'.
           destruct (Hlive _ _ Hs') as [? Hlv]. split; [done|].
           intros _. apply Hlv. congruence.
      * intros sid'. rewrite created_at_app, created_at_tag, Hcr, Hinc.
        destruct (decide (sid = sid')); lia.
      * intros sid'. rewrite destroyed_at_app, destroyed_at_tag, Hde, Hdec.
        destruct (decide (sid = sid')) as [<-|Hne'].
        -- rewrite lookup_delete_eq. destruct (Hlive _ _ Hsid) as [Hlt _].
           rewrite Hsid. solve_decide.
        -- rewrite lookup_delete_ne by done. lia.
    + intros [= <- <-]. rewrite app_nil_r. split; [|done].
      split; try done. intros sid' s' Hs'. destruct (Hlive _ _ Hs') as [? Hlv].
      split; [done|]. intros _. destruct (decide (sid' = sid)) as [->|Hne'].
      * rewrite Hsid in Hs'. injection Hs' as <-. by rewrite Hout.
      * apply Hlv. congruence.
  - intros [= <- <-]. rewrite app_nil_r. split; [|done].
    split; try done. intros sid' s' Hs'. destruct (Hlive _ _ Hs') as [? Hlv].
    split; [done|]. intros _. apply Hlv. congruence.
Qed.

Lemma session_step_consistent sid s s1 w tr :
  consistent None w tr ->
  sessions w !! sid = Some s ->
  consistent (Some sid) (set_sessions (<[sid := s1]> (sessions w)) w) tr.
Proof.
  intros [Hsize Htrace Hbound Hlive Hcr Hde] Hsid. split; simpl; try done.
  - rewrite map_size_insert_Some by eauto. done.
  - intros sid' s'. destruct (decide (sid' = sid)) as [->|Hne].
    + rewrite lookup_insert_eq. intros [= <-].
      destruct (Hlive _ _ Hsid) as [? _]. split; [done|congruence].
    + rewrite lookup_insert_ne by done. intros Hs'.
      destruct (Hlive _ _ Hs') as [? Hlv]. split; [done|]. intros _. by apply Hlv.
  - intros sid'. rewrite Hde. destruct (decide (sid' = sid)) as [->|Hne].
    + rewrite lookup_insert_eq, Hsid. solve_decide.
    + by rewrite lookup_insert_ne.
Qed.

Lemma consistent_quiet running w tr sid es :
  consistent running w tr ->
  count increments es = O -> count decrements es = O ->
  consistent running w (tr ++ tag (at_session sid) es).
Proof.
  intros [Hsize Htrace Hbound Hlive Hcr Hde] Hinc Hdec. split; try done.
  - rewrite created_app, destroyed_app, created_tag, destroyed_tag, Hinc, Hdec. lia.
  - intros sid'. rewrite created_at_app, created_at_tag, Hcr, Hinc.
    destruct (decide (sid = sid')); lia.
  - intros sid'. rewrite destroyed_at_app, destroyed_at_tag, Hde, Hdec.
    destruct (decide (sid = sid')); lia.
Qed.

Lemma consistent_listener running w tr i es :
  consistent running w tr ->
  count increments es = O -> count decrements es = O ->
  consistent running w (tr ++ tag (at_listener i) es).
Proof.
  intros [Hsize Htrace Hbound Hlive Hcr Hde] Hinc Hdec. split; try done.
  - rewrite created_app, destroyed_app, created_tag, destroyed_tag, Hinc, Hdec. lia.
  - intros sid'. rewrite created_at_app, created_at_listener, Hcr. lia.
  - intros sid'. rewrite destroyed_at_app, destroyed_at_listener, Hde. lia.
Qed.

Lemma consistent_fresh w tr :
  consistent None w tr -> sessions w !! next_session w = None.
Proof.
  intros H. destruct (sessions w !! next_session w) as [s|] eqn:Hs; [|done].
  apply (cons_live _ _ _ H) in Hs as [? _]. lia.
Qed.

Lemma make_session_consistent t target nodelay_ec w tr w' es :
  max_connections (settings w) <= Int.INT_MAX ->
  consistent None w tr ->
  active_connections_ w < max_connections (settings w) ->
  make_session t target nodelay_ec w = (w', es) ->
  consistent None w' (tr ++ es) /\ settings w' = settings w /\
  listeners w' = listeners w.
Proof.
  intros Hmax Hcons Hlt. unfold make_session.
  destruct (Session_ctor _ _ _ _ _ _ _ _) as [[s0 c] e0] eqn:Hctor.
  apply Session_ctor_events in Hctor as (-> & -> & Hinc0 & Hdec0).
  destruct (start _) as [s1 e1] eqn:Hstart.
  apply start_quiet in Hstart as [Hinc1 Hdec1].
  destruct (drop_self _ _) as [w2 e2] eqn:Hdrop. intros [= <- <-].
  pose proof (consistent_fresh _ _ Hcons) as Hfresh.
  destruct Hcons as [Hsize Htrace Hbound Hlive Hcr Hde].
  assert (Int.wrap (active_connections_ w + 1) = active_connections_ w + 1) as Hwrap.
  { apply wrap_in_range. unfold Int.in_range, Int.INT_MIN, Int.INT_MAX in *. lia. }
  rewrite app_assoc.
  eapply drop_self_consistent in Hdrop as (Hc & -> & ->); [done|done|].
  split; simpl.
  - rewrite Hwrap, Hsize, map_size_insert_None by done. lia.
  - rewrite created_app, destroyed_app, created_tag, destroyed_tag, !count_app,
      Hinc0, Hinc1, Hdec0, Hdec1, Hwrap. lia.
  - rewrite Hwrap. lia.
  - intros sid' s'. destruct (decide (sid' = next_session w)) as [->|Hne].
    + rewrite lookup_insert_eq. intros [= <-]. split; [lia|congruence].
    + rewrite lookup_insert_ne by done. intros Hs'.
      destruct (Hlive _ _ Hs') as [? Hlv]. split; [lia|]. intros _. by apply Hlv.
  - intros sid'. rewrite created_at_app, created_at_tag, Hcr, count_app, Hinc0, Hinc1.
    repeat case_decide; lia.
  - intros sid'. rewrite destroyed_at_app, destroyed_at_tag, Hde, count_app, Hdec0, Hdec1.
    destruct (decide (sid' = next_session w)) as [->|Hne].
    + rewrite lookup_insert_eq, Hfresh. solve_decide.
    + rewrite lookup_insert_ne by done. solve_decide.
Qed.

Lemma sys_deliver_consistent t c w tr w' es :
  max_connections (settings w) <= Int.INT_MAX ->
  consistent None w tr ->
  sys_deliver t c w = Some (w', es) ->
  consistent None w' (tr ++ es) /\ settings w' = settings w.
Proof.
  intros Hmax Hcons. destruct c as [i ec nodelay_ec|sid c]; simpl.
  - destruct (listeners w !! i) as [l|]; [|done].
    destruct (accepting l) as [|n]; [done|]. unfold on_accept, plz_accept.
    set (w0 := set_listeners _ w).
    assert (consistent None w0 tr) as Hcons0 by (by destruct Hcons).
    destruct (is_error ec); simpl.
    + intros [= <- <-]. split; [|done].
      apply (consistent_listener None _ tr i
               [ev_log ERROR (text_error "Accept error: " ec); ev_accept]) in Hcons0;
        [|done|done].
      by destruct Hcons0.
    + destruct (Z.geb_spec (active_connections_ w) (max_connections (settings w))).
      * intros [= <- <-]. split; [|done].
        apply (consistent_listener None _ tr i
                 [ev_log WARN (text "max connections reached. Rejecting new connection.");
                  ev_reject; ev_accept]) in Hcons0; [|done|done].
        by destruct Hcons0.
      * destruct (make_session _ _ _ _) as [w1 e1] eqn:Hmk. intros [= <- <-].
        apply (consistent_listener None _ tr i
                 [ev_log INFO (text "Accepted new connection")]) in Hcons0; [|done|done].
        eapply make_session_consistent in Hmk as (Hc1 & Hs1 & Hl1); [|done|done|done].
        simpl. rewrite Hs1. split; [|done].
        apply (consistent_listener None _ _ i [ev_accept]) in Hc1; [|done|done].
        simpl in Hc1. rewrite <- !app_assoc in Hc1. simpl in Hc1.
        by destruct Hc1.
  - destruct (sessions w !! sid) as [s|] eqn:Hsid; [|done].
    destruct (deliver t c s) as [[s1 e1]|] eqn:Hdel; [|done].
    destruct (drop_self _ _) as [w2 e2] eqn:Hdrop. intros [= <- <-].
    apply deliver_quiet in Hdel as [Hinc Hdec].
    apply (session_step_consistent sid s s1) in Hcons; [|done].
    apply (consistent_quiet _ _ _ sid e1) in Hcons; [|done|done].
    eapply drop_self_consistent in Hdrop as (Hc & -> & _); [|done|done].
    by rewrite app_assoc.
Qed.


Lemma sys_run_consistent cs w tr0 w' tr :
  max_connections (settings w) <= Int.INT_MAX ->
  consistent None w tr0 ->
  sys_run cs w = Some (w', tr) ->
  consistent None w' (tr0 ++ tr) /\ settings w' = settings w.
Proof.
  revert w tr0 w' tr. induction cs as [|[t c] cs IH]; intros w tr0 w' tr Hmax Hcons; simpl.
  - intros [= <- <-]. by rewrite app_nil_r.
  - destruct (sys_deliver t c w) as [[w1 e1]|] eqn:Hstep; [|done].
    destruct (sys_run cs w1) as [[w2 e2]|] eqn:Hrun; [|done].
    intros [= <- <-].
    apply (sys_deliver_consistent _ _ _ tr0) in Hstep as [Hc1 Hs1]; [|done|done].
    apply (IH _ (tr0 ++ e1)) in Hrun as [Hc2 Hs2]; [|by rewrite Hs1|done].
    rewrite app_assoc. split; [done|congruence].
Qed.

Lemma TCPForwarder_ctor_consistent cfg forwarders w0 :
  TCPForwarder_ctor cfg forwarders = Some w0 ->
  consistent None w0 [] /\ settings w0 = cfg /\
  Forall (fun l => accepting l = 1%nat) (listeners w0) /\
  sessions w0 = ∅ /\ active_connections_ w0 = 0.
Proof.
  unfold TCPForwarder_ctor. destruct (expand_forwarders forwarders) as [pairs|]; [|done].
  intros [= <-]. simpl. split_and!; try done.
  - split; simpl; try done; try lia.
  - apply Forall_forall. intros l Hl. apply list_elem_of_fmap in Hl as (p & -> & _). done.
Qed.

(** C5: at every point of every run of the forwarder the counter equals
    the number of sessions constructed minus the number destroyed, which
    is the number of sessions alive; it is never negative; every session
    is counted once when it is constructed and released once, when it is
    destroyed, and a session with nothing outstanding does not stay
    counted. *)
Theorem admission_counter_invariant
    (cfg : ForwarderConfig) (forwarders : list ForwardRule) (w0 w : TCPForwarder)
    (cs : list (Z * sys_completion)) (tr : list sys_event) :
  Int.in_range (max_connections cfg) ->
  TCPForwarder_ctor cfg forwarders = Some w0 ->
  sys_run cs w0 = Some (w, tr) ->
  active_connections_ w = Z.of_nat (created tr) - Z.of_nat (destroyed tr) /\
  active_connections_ w = Z.of_nat (size (sessions w)) /\
  0 <= active_connections_ w /\
  (forall sid s, sessions w !! sid = Some s -> outstanding s <> []) /\
  forall sid : nat,
    (destroyed_at sid tr <= created_at sid tr <= 1)%nat /\
    (is_Some (sessions w !! sid) -> created_at sid tr = 1%nat /\ destroyed_at sid tr = O) /\
    (created_at sid tr = 1%nat -> sessions w !! sid = None -> destroyed_at sid tr = 1%nat).
Proof.
  intros [_ Hmax] Hctor Hrun.
  apply TCPForwarder_ctor_consistent in Hctor as (Hc0 & Hs0 & _).
  apply (sys_run_consistent _ _ []) in Hrun as [[Hsize Htrace Hbound Hlive Hcr Hde] _];
    [|by rewrite Hs0|done].
  simpl in *. split_and!; try lia.
  - intros sid s Hs. by apply (Hlive _ _ Hs).
  - intros sid. rewrite Hcr, Hde. split_and!.
    + solve_decide.
    + solve_decide.
    + intros [s Hs]. destruct (Hlive _ _ Hs) as [Hlt _]. rewrite Hs. solve_decide.
    + intros H1 Hnone. rewrite Hnone. solve_decide.
Qed.

(** ** The accept handler *)

Lemma rearm_listener i l n (ls : list Listener) :
  ls !! i = Some l -> accepting l = S n ->
  alter (fun l => set_accepting (S (accepting l)) l) i (<[i := set_accepting n l]> ls) = ls.
Proof.
  intros Hl Hn. apply list_eq. intros j. destruct (decide (i = j)) as [<-|Hne].
  - rewrite list_lookup_alter_eq, list_lookup_insert_eq by (by eapply lookup_lt_Some).
    simpl. f_equal. destruct l; simpl in *. by subst.
  - by rewrite list_lookup_alter_ne, list_lookup_insert_ne.
Qed.

(** C3: when the counter has reached [max_connections] as a connection is
    accepted, the handler logs a warning, closes the inbound socket and
    accepts again; it constructs no [Session] (the heap and the counter are
    unchanged, nothing is tagged with a session) and so makes no connect
    attempt. *)
Theorem admission_rejection
    (t : Z) (i : nat) (nodelay_ec : error_code) (w : TCPForwarder) (l : Listener) :
  listeners w !! i = Some l ->
  (0 < accepting l)%nat ->
  active_connections_ w >= max_connections (settings w) ->
  exists w' : TCPForwarder,
    sys_deliver t (accept_done i success nodelay_ec) w
      = Some (w', tag (at_listener i)
                    [ev_log WARN (text "max connections reached. Rejecting new connection.");
                     ev_reject; ev_accept]) /\
    active_connections_ w' = active_connections_ w /\
    sessions w' = sessions w /\
    next_session w' = next_session w /\
    listeners w' = listeners w.
Proof.
  intros Hl Hacc Hfull. simpl. rewrite Hl.
  destruct (accepting l) as [|n] eqn:Hn; [lia|].
  unfold on_accept, plz_accept. simpl.
  destruct (Z.geb_spec (active_connections_ w) (max_connections (settings w))); [|lia].
  eexists. split; [reflexivity|]. simpl. split_and!; try done.
  by apply (rearm_listener i l n).
Qed.

Lemma drop_self_listeners sid w w' es :
  drop_self sid w = (w', es) -> listeners w' = listeners w /\ settings w' = settings w.
Proof.
  unfold drop_self. destruct (sessions w !! sid) as [s|]; [|by intros [= <- <-]].
  destruct (outstanding s); [|by intros [= <- <-]].
  destruct (Session_dtor _ _). by intros [= <- <-].
Qed.

Lemma make_session_listeners t target nodelay_ec w w' es :
  make_session t target nodelay_ec w = (w', es) ->
  listeners w' = listeners w /\ settings w' = settings w.
Proof.
  unfold make_session. destruct (Session_ctor _ _ _ _ _ _ _ _) as [[s0 c] e0].
  destruct (start s0) as [s1 e1]. destruct (drop_self _ _) as [w2 e2] eqn:Hdrop.
  intros [= <- <-]. by apply drop_self_listeners in Hdrop as [-> ->].
Qed.


(** The handler of an accept leaves every listener as it found it before
    the completion: the accept that completed is issued again. *)
Lemma sys_deliver_listeners t c w w' es :
  sys_deliver t c w = Some (w', es) ->
  listeners w' = listeners w /\ settings w' = settings w.
Proof.
  destruct c as [i ec nodelay_ec|sid c]; simpl.
  - destruct (listeners w !! i) as [l|] eqn:Hl; [|done].
    destruct (accepting l) as [|n] eqn:Hn; [done|].
    unfold on_accept, plz_accept.
    destruct (is_error ec); simpl.
    + intros [= <- <-]. simpl. split; [|done]. by apply rearm_listener.
    + destruct (_ >=? _).
      * intros [= <- <-]. simpl. split; [|done]. by apply rearm_listener.
      * destruct (make_session _ _ _ _) as [w1 e1] eqn:Hmk. intros [= <- <-]. simpl.
        apply make_session_listeners in Hmk as [-> ->]. simpl.
        split; [|done]. by apply rearm_listener.
  - destruct (sessions w !! sid) as [s|]; [|done].
    destruct (deliver t c s) as [[s1 e1]|]; [|done].
    destruct (drop_self _ _) as [w2 e2] eqn:Hdrop. intros [= <- <-].
    by apply drop_self_listeners in Hdrop as [-> ->].
Qed.

Lemma sys_run_listeners cs w w' tr :
  sys_run cs w = Some (w', tr) ->
  listeners w' = listeners w /\ settings w' = settings w.
Proof.
  revert w w' tr. induction cs as [|[t c] cs IH]; intros w w' tr; simpl.
  - by intros [= <- <-].
  - destruct (sys_deliver t c w) as [[w1 e1]|] eqn:Hstep; [|done].
    destruct (sys_run cs w1) as [[w2 e2]|] eqn:Hrun; [|done].
    intros [= <- <-].
    apply sys_deliver_listeners in Hstep as [<- <-]. by apply IH in Hrun.
Qed.

Lemma on_accept_last t i target ec nodelay_ec w w' es :
  on_accept t i target ec nodelay_ec w = (w', es) ->
  last es = Some (at_listener i, ev_accept) /\
  (is_error ec = true ->
   es = tag (at_listener i) [ev_log ERROR (text_error "Accept error: " ec); ev_accept] /\
   sessions w' = sessions w /\ active_connections_ w' = active_connections_ w).
Proof.
  unfold on_accept, plz_accept. destruct (is_error ec); simpl.
  - by intros [= <- <-].
  - destruct (_ >=? _).
    + by intros [= <- <-].
    + destruct (make_session _ _ _ _) as [w1 e1]. intros [= <- <-].
      split; [|done]. by rewrite app_comm_cons, last_snoc.
Qed.

(** C7: after any run of the forwarder every listener has its accept
    outstanding, so that the completion of an accept, with whatever error
    code, is handled; the handler ends by issuing the next accept on the
    same listener and leaves all listeners accepting, and on an error it
    does nothing but log the error and accept again. *)
Theorem accept_loop_never_stops
    (cfg : ForwarderConfig) (forwarders : list ForwardRule) (w0 w : TCPForwarder)
    (cs : list (Z * sys_completion)) (tr : list sys_event) :
  TCPForwarder_ctor cfg forwarders = Some w0 ->
  sys_run cs w0 = Some (w, tr) ->
  listeners w = listeners w0 /\
  forall (i : nat) (l : Listener), listeners w !! i = Some l ->
    accepting l = 1%nat /\
    forall (t : Z) (ec nodelay_ec : error_code),
    exists (w' : TCPForwarder) (es : list sys_event),
      sys_deliver t (accept_done i ec nodelay_ec) w = Some (w', es) /\
      last es = Some (at_listener i, ev_accept) /\
      listeners w' = listeners w /\
      (is_error ec = true ->
       es = tag (at_listener i) [ev_log ERROR (text_error "Accept error: " ec); ev_accept] /\
       sessions w' = sessions w /\ active_connections_ w' = active_connections_ w).
Proof.
  intros Hctor Hrun.
  apply TCPForwarder_ctor_consistent in Hctor as (_ & _ & Hacc & _).
  apply sys_run_listeners in Hrun as [Hls _]. split; [done|].
  intros i l Hl. rewrite Hls in Hl.
  assert (accepting l = 1%nat) as Hone.
  { rewrite Forall_forall in Hacc. apply Hacc. by eapply list_elem_of_lookup_2. }
  split; [done|]. intros t ec nodelay_ec.
  destruct (sys_deliver t (accept_done i ec nodelay_ec) w) as [[w' es]|] eqn:Hstep.
  - exists w', es. split; [done|].
    pose proof (sys_deliver_listeners _ _ _ _ _ Hstep) as [Hl' _].
    simpl in Hstep. rewrite Hls, Hl, Hone in Hstep. injection Hstep as Hstep.
    apply on_accept_last in Hstep as [Hlast Herr]. done.
  - simpl in Hstep. by rewrite Hls, Hl, Hone in Hstep.
Qed.

Lemma accepted_cons t c cs :
  accepted ((t, c) :: cs) = (accepted [(t, c)] + accepted cs)%nat.
Proof. apply (count_app _ [(t, c)] cs). Qed.

Lemma rejected_app tr1 tr2 : rejected (tr1 ++ tr2) = (rejected tr1 + rejected tr2)%nat.
Proof. apply count_app. Qed.

Lemma sys_deliver_max_zero t c w w' es :
  max_connections (settings w) = 0 ->
  sessions w = ∅ -> active_connections_ w = 0 ->
  sys_deliver t c w = Some (w', es) ->
  sessions w' = ∅ /\ active_connections_ w' = 0 /\ settings w' = settings w /\
  created es = O /\ rejected es = accepted [(t, c)].
Proof.
  intros Hmax Hempty Hzero. destruct c as [i ec nodelay_ec|sid c]; simpl.
  - destruct (listeners w !! i) as [l|]; [|done].
    destruct (accepting l) as [|n]; [done|].
    unfold on_accept, plz_accept. simpl. rewrite Hmax, Hzero. simpl.
    unfold accepted. simpl.
    destruct (is_error ec); intros [= <- <-]; by split_and!.
  - by rewrite Hempty, lookup_empty.
Qed.

(** C10: with [max_connections] 0 the counter, which starts at 0, never
    moves: no run of the forwarder constructs a [Session], the heap of
    sessions stays empty, and every connection accepted without an error
    is closed at once. *)
Theorem zero_max_connections_rejects_all
    (cfg : ForwarderConfig) (forwarders : list ForwardRule) (w0 w : TCPForwarder)
    (cs : list (Z * sys_completion)) (tr : list sys_event) :
  max_connections cfg = 0 ->
  TCPForwarder_ctor cfg forwarders = Some w0 ->
  sys_run cs w0 = Some (w, tr) ->
  created tr = O /\ sessions w = ∅ /\ active_connections_ w = 0 /\
  rejected tr = accepted cs.
Proof.
  intros Hmax Hctor.
  apply TCPForwarder_ctor_consistent in Hctor as (_ & Hs0 & _ & Hempty & Hzero).
  rewrite <- Hs0 in Hmax. clear Hs0.
  revert w0 w tr Hmax Hempty Hzero.
  induction cs as [|[t c] cs IH]; intros w0 w tr Hmax Hempty Hzero; simpl.
  - by intros [= <- <-].
  - destruct (sys_deliver t c w0) as [[w1 e1]|] eqn:Hstep; [|done].
    destruct (sys_run cs w1) as [[w2 e2]|] eqn:Hrun; [|done].
    intros [= <- <-].
    apply sys_deliver_max_zero in Hstep as (He1 & Hz1 & Hs1 & Hc1 & Hr1); [|done..].
    apply IH in Hrun as (Hc2 & He2 & Hz2 & Hr2); [|by rewrite Hs1|done|done].
    rewrite created_app, rejected_app, accepted_cons, Hc1, Hc2, Hr1, Hr2. done.
Qed.
(** ** A single read completion *)

Lemma take_filled {A : Type} (data buffer : list A) :
  take (length data) (data ++ drop (length data) buffer) = data.
Proof. by rewrite take_app_length. Qed.

Lemma get_set_buffer b v s : get_buffer b (set_buffer b v s) = v.
Proof. by destruct b. Qed.

(** What the handler of a read does, by the error code of the read. *)
Lemma deliver_read_done
    (t : Z) (source destination : socket_ref) (buffer : buffer_ref)
    (ec : error_code) (data : list Byte.byte) (s s' : Session) (es : list event) :
  deliver t (read_done source destination buffer ec data) s = Some (s', es) ->
  exists rest : list op,
    take_op (async_read_some source destination buffer) (outstanding s) = Some rest /\
    match ec with
    | success =>
        es = [ev_received source data;
              ev_log DEBUG (text_int "Data read from the sourcePoint. Length: "
                                     (Z.of_nat (length data)));
              ev_write destination data] /\
        outstanding s' = rest ++ [async_write source destination buffer (length data)] /\
        in_socket_ s' = in_socket_ s /\ out_socket_ s' = out_socket_ s
    | operation_aborted =>
        es = [ev_received source []] /\ outstanding s' = rest /\
        in_socket_ s' = in_socket_ s /\ out_socket_ s' = out_socket_ s
    | failure _ =>
        es = [ev_received source [];
              ev_log ERROR (text_error "Read error: " ec);
              ev_close in_socket (in_socket_ s);
              ev_close out_socket (out_socket_ s);
              ev_log INFO (text "Sockets closed")] /\
        outstanding s' = rest /\
        in_socket_ s' = false /\ out_socket_ s' = false
    end.
Proof.
  unfold deliver, complete. intros H.
  destruct (now s <=? t); [|done].
  destruct (_ && _) eqn:Hlib; [|done].
  apply andb_prop in Hlib as [_ Hdata].
  destruct (take_op _ _) as [rest|]; [|done]. exists rest. split; [done|].
  destruct ec; simpl in Hdata.
  - unfold_handlers. simpl in H. injection H as <- <-.
    rewrite get_set_buffer, take_filled. by destruct buffer.
  - apply bool_decide_eq_true in Hdata as ->.
    unfold_handlers. simpl in H. injection H as <- <-. by destruct buffer.
  - apply bool_decide_eq_true in Hdata as ->.
    unfold_handlers. simpl in H. injection H as <- <-. by destruct buffer.
Qed.

(** C4, as the code has it: a read that ends with an error other than
    cancellation (the end of the stream is such an error) makes the
    handler close both sockets and issue nothing, so that the loop stops;
    a read that ends without an error is followed by the write of exactly
    the bytes it returned, whatever their number, zero included, with no
    close; a cancelled read does nothing. *)
Theorem read_completion
    (t : Z) (source destination : socket_ref) (buffer : buffer_ref)
    (ec : error_code) (data : list Byte.byte) (s s' : Session) (es : list event) :
  deliver t (read_done source destination buffer ec data) s = Some (s', es) ->
  exists rest : list op,
    take_op (async_read_some source destination buffer) (outstanding s) = Some rest /\
    match ec with
    | success =>
        es = [ev_received source data;
              ev_log DEBUG (text_int "Data read from the sourcePoint. Length: "
                                     (Z.of_nat (length data)));
              ev_write destination data] /\
        outstanding s' = rest ++ [async_write source destination buffer (length data)] /\
        in_socket_ s' = in_socket_ s /\ out_socket_ s' = out_socket_ s
    | operation_aborted =>
        es = [ev_received source []] /\ outstanding s' = rest /\
        in_socket_ s' = in_socket_ s /\ out_socket_ s' = out_socket_ s
    | failure _ =>
        es = [ev_received source [];
              ev_log ERROR (text_error "Read error: " ec);
              ev_close in_socket (in_socket_ s);
              ev_close out_socket (out_socket_ s);
              ev_log INFO (text "Sockets closed")] /\
        outstanding s' = rest /\
        in_socket_ s' = false /\ out_socket_ s' = false
    end.
Proof. apply deliver_read_done. Qed.

(** C4 as stated fails: on a session that forwards with a buffer of size 0,
    the read on the inbound socket completes with zero bytes and no error;
    the handler closes nothing and issues a write of zero bytes, after
    which (see [on_write]) the loop reads again. *)
Lemma zero_length_read_counterexample :
  exists s s' es es',
    forwarding_session 0 = Some (s, es) /\
    deliver 2 (read_done in_socket out_socket data_in success []) s = Some (s', es') /\
    in_socket_ s' = true /\ out_socket_ s' = true /\
    count tears_down es' = O /\
    es' = [ev_received in_socket [];
           ev_log DEBUG (text_int "Data read from the sourcePoint. Length: " 0);
           ev_write out_socket []] /\
    outstanding s' = [async_read_some out_socket in_socket data_out;
                      async_write in_socket out_socket data_in 0].
Proof. do 4 eexists. split_and!; reflexivity. Qed.
(** ** Connect attempts against a target that cannot be reached *)

Lemma connect_times_app tr1 tr2 :
  connect_times (tr1 ++ tr2) = connect_times tr1 ++ connect_times tr2.
Proof.
  induction tr1 as [|e tr1 IH]; simpl; [done|].
  destruct e; simpl; by rewrite ?IH.
Qed.

Lemma separated_snoc d l t :
  separated d (l ++ [t]) <->
  separated d l /\ forall tl, last l = Some tl -> tl + d <= t.
Proof.
  induction l as [|t1 l IH]; simpl.
  - split; [intros _; split; [done|intros ? [=]] | done].
  - destruct l as [|t2 l]; simpl in *.
    + split.
      * intros [H _]. split; [done|]. by intros tl [= <-].
      * intros [_ H]. split; [by apply H|done].
    + rewrite IH. tauto.
Qed.

Lemma connecting_step k t c s tr s' es :
  connecting k s tr ->
  connect_fails (t, c) = true ->
  deliver t c s = Some (s', es) ->
  connecting (k + 1) s' (tr ++ es) /\
  retry_attempts_ s' = retry_attempts_ s /\ retry_delay_ s' = retry_delay_ s.
Proof.
  unfold connecting. intros (Hsep & Hfw & Hphase) Hfail Hstep.
  rewrite connect_times_app, count_app, Hfw.
  destruct Hphase as [(Hout & Ha & Hlen & Hk & tl & Hlast & Htl)
                     |[(Hout & Ha & Hlen & Hk & tl & Hlast & Htl)
                      |(Hout & _)]].
  - unfold deliver, complete in Hstep. rewrite Hout in Hstep.
    destruct (Z.leb_spec (now s) t); [|done].
    destruct c; simpl in Hstep; try done; [|by repeat case_match..].
    unfold connect_fails in Hfail. simpl in Hfail.
    unfold on_connect in Hstep. rewrite Hfail in Hstep.
    unfold_handlers. simpl in Hstep. injection Hstep as <- <-. simpl.
    rewrite app_nil_r. split_and!; try done.
    right. left. split_and!; try done; try lia.
    exists tl. split; [done|lia].
  - unfold deliver, complete in Hstep. rewrite Hout in Hstep.
    destruct (Z.leb_spec (now s) t); [|done].
    destruct c; simpl in Hstep; try done; [|by repeat case_match..].
    destruct (negb (is_error ec)); [|done]. simpl in Hstep.
    destruct (Z.leb_spec (timer_ s) t); [|done]. simpl in Hstep.
    unfold on_wait, attempt_connection in Hstep. simpl in Hstep.
    destruct (Z.geb_spec (current_attempt_ s) (retry_attempts_ s)).
    + unfold_handlers. injection Hstep as <- <-. simpl.
      rewrite app_nil_r. split_and!; try done.
      right. right. split_and!; try done; lia.
    + unfold_handlers. simpl in Hstep. injection Hstep as <- <-. simpl.
      split_and!; try done.
      * apply separated_snoc. split; [done|].
        intros tl'. rewrite Hlast. intros [= <-]. lia.
      * left. split_and!; try done; try lia.
        -- rewrite length_app. simpl. lia.
        -- exists t. split; [by rewrite last_snoc|lia].
  - unfold deliver, complete in Hstep. rewrite Hout in Hstep.
    by repeat case_match.
Qed.

Lemma connecting_run cs k s tr s' es :
  connecting k s tr ->
  forallb connect_fails cs = true ->
  run cs s = Some (s', es) ->
  connecting (k + Z.of_nat (length cs)) s' (tr ++ es) /\
  retry_attempts_ s' = retry_attempts_ s /\ retry_delay_ s' = retry_delay_ s.
Proof.
  revert k s tr s' es.
  induction cs as [|[t c] cs IH]; intros k s tr s' es Hinv; cbn [run forallb].
  - intros _ [= <- <-]. by rewrite app_nil_r, Z.add_0_r.
  - intros [Hc Hcs]%andb_prop.
    destruct (deliver t c s) as [[s1 e1]|] eqn:Hstep; [|done].
    destruct (run cs s1) as [[s2 e2]|] eqn:Hrun; [|done].
    intros [= <- <-].
    eapply connecting_step in Hstep as (Hinv1 & Hn1 & Hd1); [|done|done].
    eapply IH in Hrun as (Hinv2 & Hn2 & Hd2); [|done|done].
    rewrite app_assoc. split; [|split; congruence].
    replace (k + Z.of_nat (length ((t, c) :: cs)))
      with (k + 1 + Z.of_nat (length cs)) by (simpl length; lia).
    done.
Qed.

Lemma connecting_started t0 target bs nd n d :
  0 <= n ->
  connecting 0 (fst (started t0 target bs nd n d)) (snd (started t0 target bs nd n d)) /\
  retry_attempts_ (fst (started t0 target bs nd n d)) = n /\
  retry_delay_ (fst (started t0 target bs nd n d)) = d.
Proof.
  intros Hn. unfold connecting.
  destruct n as [|p|p]; [| |lia]; cbn; split_and!; try done.
  - right. right. by split_and!.
  - left. split_and!; try done; try lia. by exists t0.
Qed.

(** C2: a session whose connect attempts all fail issues at most
    [retry_attempts] of them, any two consecutive ones at least
    [retry_delay] seconds apart (the timer's expiry lies between them), and
    never issues a read or a write.  After [2 * retry_attempts]
    completions, and not before, nothing is outstanding, so the session is
    destroyed, having made exactly [retry_attempts] attempts; until then a
    completion is always due, so the session cannot stop earlier. *)
Theorem retry_bound
    (t0 : Z) (target : endpoint) (bs : nat) (nd : bool) (n d : Z)
    (cs : list (Z * completion)) (s' : Session) (es : list event) :
  0 <= n ->
  forallb connect_fails cs = true ->
  run cs (fst (started t0 target bs nd n d)) = Some (s', es) ->
  let tr := snd (started t0 target bs nd n d) ++ es in
  Z.of_nat (length (connect_times tr)) <= n /\
  separated d (connect_times tr) /\
  count forwards tr = O /\
  (outstanding s' = [] <-> Z.of_nat (length cs) = 2 * n) /\
  (outstanding s' = [] -> Z.of_nat (length (connect_times tr)) = n) /\
  (outstanding s' <> [] ->
   exists c, connect_fails (Z.max (now s') (timer_ s'), c) = true /\
             is_Some (deliver (Z.max (now s') (timer_ s')) c s')).
Proof.
  intros Hn Hfail Hrun tr.
  destruct (connecting_started t0 target bs nd n d Hn) as (Hinv0 & Hn0 & Hd0).
  eapply connecting_run in Hrun as (Hinv & Hn' & Hd'); [|done|done].
  fold tr in Hinv. rewrite Hn0 in Hn'. rewrite Hd0 in Hd'.
  unfold connecting in Hinv. rewrite Hn', Hd' in Hinv. simpl in Hinv.
  destruct Hinv as (Hsep & Hfw & Hphase). split_and!; try done.
  - destruct Hphase as [(_ & ? & ? & _)|[(_ & ? & ? & _)|(_ & ? & ? & _)]]; lia.
  - destruct Hphase as [(Ho & ? & ? & ? & _)|[(Ho & ? & ? & ? & _)|(Ho & ? & ? & ?)]];
      rewrite Ho; split; (done || lia).
  - destruct Hphase as [(Ho & _)|[(Ho & _)|(Ho & ? & ? & ?)]];
      rewrite Ho; (done || lia).
  - intros Hne.
    destruct Hphase as [(Ho & _)|[(Ho & _)|(Ho & _)]]; [| |done].
    + exists (connect_done (failure 111) success). split; [done|].
      unfold deliver, complete. rewrite Ho. simpl.
      destruct (Z.leb_spec (now s') (Z.max (now s') (timer_ s'))); [|lia]. by eexists.
    + exists (wait_done success). split; [done|].
      unfold deliver, complete. rewrite Ho. simpl.
      destruct (Z.leb_spec (now s') (Z.max (now s') (timer_ s'))); [|lia].
      destruct (Z.leb_spec (timer_ s') (Z.max (now s') (timer_ s'))); [|lia]. by eexists.
Qed.

(** ** The life of a session *)

Lemma take_op_elem o l rest : take_op o l = Some rest -> o ∈ l.
Proof.
  revert rest. induction l as [|x l IH]; intros rest; simpl; [done|].
  destruct (decide (x = o)) as [->|Hne]; [intros _; left|].
  destruct (take_op o l) as [rest'|]; [|done]. intros _. right. by eapply IH.
Qed.

Lemma take_op_Forall (P : op -> Prop) o l rest :
  take_op o l = Some rest -> Forall P l -> Forall P rest.
Proof.
  revert rest. induction l as [|x l IH]; intros rest; simpl; [done|].
  destruct (decide (x = o)) as [->|Hne].
  - intros [= <-] Hall. by inversion Hall.
  - destruct (take_op o l) as [rest'|]; [|done]. intros [= <-] Hall.
    inversion Hall; subst. constructor; [done|]. by eapply IH.
Qed.

Lemma take_op_ops_of_other d o l rest :
  take_op o l = Some rest -> loop_of o <> Some d -> ops_of d rest = ops_of d l.
Proof.
  revert rest. induction l as [|x l IH]; intros rest; simpl; [done|].
  destruct (decide (x = o)) as [->|Hne].
  - intros [= <-] Ho. unfold ops_of. by rewrite filter_cons_False.
  - destruct (take_op o l) as [rest'|]; [|done]. intros [= <-] Ho.
    unfold ops_of in *. rewrite !filter_cons. by rewrite (IH rest').
Qed.

Lemma take_op_ops_of d o l rest :
  take_op o l = Some rest -> loop_of o = Some d ->
  take_op o (ops_of d l) = Some (ops_of d rest).
Proof.
  revert rest. induction l as [|x l IH]; intros rest; simpl; [done|].
  destruct (decide (x = o)) as [->|Hne].
  - intros [= <-] Ho. unfold ops_of. rewrite filter_cons_True by done.
    simpl. by rewrite decide_True.
  - destruct (take_op o l) as [rest'|]; [|done]. intros [= <-] Ho.
    unfold ops_of in *. rewrite !filter_cons.
    destruct (decide (loop_of x = Some d)); simpl.
    + rewrite decide_False by done. by rewrite (IH rest').
    + by apply IH.
Qed.

Lemma ops_of_snoc d l o :
  ops_of d (l ++ [o]) = ops_of d l ++ (if decide (loop_of o = Some d) then [o] else []).
Proof.
  unfold ops_of. rewrite filter_app. f_equal.
Qed.

Lemma received_app r tr1 tr2 : received r (tr1 ++ tr2) = received r tr1 ++ received r tr2.
Proof.
  induction tr1 as [|e tr1 IH]; simpl; [done|].
  destruct e; try done. destruct (decide _); [|done]. by rewrite IH, app_assoc.
Qed.

Lemma delivered_app r tr1 tr2 :
  delivered r (tr1 ++ tr2) = delivered r tr1 ++ delivered r tr2.
Proof.
  induction tr1 as [|e tr1 IH]; simpl; [done|].
  destruct e; try done. destruct (decide _); [|done]. by rewrite IH, app_assoc.
Qed.

Lemma copy_loops_idle s tr :
  (forall r, received r tr = [] /\ delivered r tr = []) ->
  (forall d, ops_of d (outstanding s) = []) ->
  Forall (copy_loop_ok s tr) directions.
Proof.
  intros Hempty Hops. apply Forall_forall. intros [[src dst] buf] _. simpl.
  destruct (Hempty src) as [-> _]. destruct (Hempty dst) as [_ ->].
  split; [done|]. left. apply Hops.
Qed.

Lemma lifecycle_connecting_step t c s tr s' es :
  Forall (copy_loop_ok s tr) directions ->
  in_socket_ s = true ->
  count (closes in_socket) tr = O -> count (closes out_socket) tr = O ->
  count tears_down tr = O ->
  (forall r, received r tr = [] /\ delivered r tr = []) ->
  (outstanding s = [] \/
   (outstanding s = [async_connect] /\ out_socket_ s = true) \/
   outstanding s = [async_wait]) ->
  deliver t c s = Some (s', es) ->
  lifecycle s' (tr ++ es).
Proof.
  intros Hloops Hin Hcin Hcout Htd Hempty Hout Hstep.
  unfold deliver, complete in Hstep.
  destruct Hout as [Hout|[[Hout Hopen]|Hout]]; rewrite Hout in Hstep.
  - by repeat case_match.
  - destruct (now s <=? t); [|done].
    destruct c; simpl in Hstep; try done; [|by repeat case_match..].
    unfold on_connect in Hstep.
    destruct (is_error ec); simpl in Hstep.
    + unfold_handlers. simpl in Hstep. injection Hstep as <- <-.
      split.
      * apply copy_loops_idle; [|done].
        intros r. rewrite received_app, delivered_app. simpl.
        destruct (Hempty r) as [-> ->]. done.
      * left. rewrite !count_app, Hcin, Hcout, Htd. simpl. split_and!; try done.
        -- intros r. rewrite received_app, delivered_app. simpl.
           destruct (Hempty r) as [-> ->]. done.
        -- by right; right.
    + unfold_handlers. unfold set_no_delay_out, logger_, emit in Hstep.
      destruct (is_error nodelay_ec); simpl in Hstep; injection Hstep as <- <-.
      all: split;
        [ apply Forall_forall; intros [[src dst] buf] Hd; simpl;
          rewrite received_app, delivered_app; simpl;
          destruct (Hempty src) as [-> _]; destruct (Hempty dst) as [_ ->];
          split; [done|]; right; left; split; [|done];
          apply list_elem_of_In in Hd; simpl in Hd;
          destruct Hd as [[= <- <- <-]|[[= <- <- <-]|[]]]; reflexivity
        | right; split_and!;
          [ repeat constructor; eexists; (split; [|reflexivity]);
            apply list_elem_of_In; simpl; auto
          | intros r; rewrite count_app; destruct r; simpl; rewrite ?Hcin, ?Hcout, ?Hin, ?Hopen; done
          | rewrite count_app, Htd; simpl; done ] ].
  - destruct (now s <=? t); [|done].
    destruct c; simpl in Hstep; try done; [|by repeat case_match..].
    destruct (negb (is_error ec) && (timer_ s <=? t)); [|done]. simpl in Hstep.
    unfold on_wait, attempt_connection in Hstep. simpl in Hstep.
    destruct (current_attempt_ s >=? retry_attempts_ s).
    + unfold_handlers. injection Hstep as <- <-. split.
      * apply copy_loops_idle; [|done].
        intros r. rewrite received_app, delivered_app. simpl.
        destruct (Hempty r) as [-> ->]. done.
      * left. rewrite !count_app, Hcin, Hcout, Htd. simpl. split_and!; try done.
        -- intros r. rewrite received_app, delivered_app. simpl.
           destruct (Hempty r) as [-> ->]. done.
        -- by left.
    + unfold_handlers. simpl in Hstep. injection Hstep as <- <-. split.
      * apply copy_loops_idle; [|done].
        intros r. rewrite received_app, delivered_app. simpl.
        destruct (Hempty r) as [-> ->]. done.
      * left. rewrite !count_app, Hcin, Hcout, Htd. simpl. split_and!; try done.
        -- intros r. rewrite received_app, delivered_app. simpl.
           destruct (Hempty r) as [-> ->]. done.
        -- right; left. done.
Qed.

Lemma copy_loop_frame s tr s' es d :
  copy_loop_ok s tr d ->
  ops_of d (outstanding s') = ops_of d (outstanding s) ->
  received (fst (fst d)) es = [] ->
  delivered (snd (fst d)) es = [] ->
  get_buffer (snd d) s' = get_buffer (snd d) s ->
  copy_loop_ok s' (tr ++ es) d.
Proof.
  destruct d as [[src dst] buf]. simpl. intros [Hpre Hcase] Hops Hrx Htx Hbuf.
  rewrite received_app, delivered_app, Hrx, Htx, !app_nil_r, Hops, Hbuf. done.
Qed.

Lemma directions_apart d d' :
  d ∈ directions -> d' ∈ directions -> d <> d' ->
  fst (fst d) <> fst (fst d') /\ snd (fst d) <> snd (fst d') /\ snd d <> snd d'.
Proof.
  intros Hd Hd' Hne. apply list_elem_of_In in Hd, Hd'. simpl in Hd, Hd'.
  destruct Hd as [<-|[<-|[]]], Hd' as [<-|[<-|[]]]; done.
Qed.

Lemma get_set_buffer_ne b b' v s : b <> b' -> get_buffer b' (set_buffer b v s) = get_buffer b' s.
Proof. by destruct b, b'. Qed.

Lemma not_loop_of o d d' : loop_of o = Some d -> d <> d' -> loop_of o <> Some d'.
Proof. congruence. Qed.

(** What the invariant says about the loop whose operation completes. *)
Lemma copy_loop_read_done s tr src dst buf rest :
  copy_loop_ok s tr (src, dst, buf) ->
  take_op (async_read_some src dst buf) (outstanding s) = Some rest ->
  ops_of (src, dst, buf) rest = [] /\ delivered dst tr = received src tr.
Proof.
  intros [_ Hcase] Htake.
  apply (take_op_ops_of (src, dst, buf)) in Htake; [|done].
  destruct Hcase as [Hops|[[Hops Heq]|(n & Hops & _)]]; rewrite Hops in Htake.
  - done.
  - cbn [take_op] in Htake. rewrite decide_True in Htake by done.
    by injection Htake as <-.
  - cbn [take_op] in Htake. by rewrite decide_False in Htake.
Qed.

Lemma copy_loop_write_done s tr src dst buf n rest :
  copy_loop_ok s tr (src, dst, buf) ->
  take_op (async_write src dst buf n) (outstanding s) = Some rest ->
  ops_of (src, dst, buf) rest = [] /\
  received src tr = delivered dst tr ++ take n (get_buffer buf s).
Proof.
  intros [_ Hcase] Htake.
  apply (take_op_ops_of (src, dst, buf)) in Htake; [|done].
  destruct Hcase as [Hops|[[Hops Heq]|(m & Hops & Heq)]]; rewrite Hops in Htake.
  - done.
  - cbn [take_op] in Htake. by rewrite decide_False in Htake.
  - cbn [take_op] in Htake. destruct (decide _) as [[= ->]|]; [|done].
    by injection Htake as <-.
Qed.

Lemma get_buffer_set_outstanding b l s :
  get_buffer b (set_outstanding l s) = get_buffer b s.
Proof. by destruct b. Qed.

Lemma get_buffer_set_now b t s : get_buffer b (set_now t s) = get_buffer b s.
Proof. by destruct b. Qed.

Lemma get_buffer_set_socket b r v s :
  get_buffer b (set_socket r v s) = get_buffer b s.
Proof. by destruct b. Qed.

Lemma outstanding_set_buffer b v s : outstanding (set_buffer b v s) = outstanding s.
Proof. done. Qed.

Lemma copy_op_direction o l d :
  Forall copy_op l -> o ∈ l -> loop_of o = Some d -> d ∈ directions.
Proof.
  intros Hall Ho Hd. rewrite Forall_forall in Hall.
  destruct (Hall _ Ho) as (d' & Hd' & Heq). congruence.
Qed.

Ltac frame_loop s Hloops Htake Hd Hd' Hne :=
  let Ha := fresh in
  let Hb := fresh in
  let Hc := fresh in
  destruct (directions_apart _ _ Hd Hd' Hne) as (Ha & Hb & Hc);
  simpl in Ha, Hb, Hc;
  apply (copy_loop_frame s);
  [ by apply (proj1 (Forall_forall _ _) Hloops)
  | simpl; rewrite ?ops_of_snoc; simpl; rewrite ?decide_False by congruence;
    rewrite ?app_nil_r; apply (take_op_ops_of_other _ _ _ _ Htake); simpl; congruence
  | simpl; rewrite ?decide_False by done; done
  | simpl; rewrite ?decide_False by done; done
  | simpl;
    rewrite ?get_buffer_set_outstanding, ?get_buffer_set_socket,
      ?get_buffer_set_outstanding, ?get_set_buffer_ne,
      ?get_buffer_set_now, ?get_buffer_set_outstanding by done;
    done ].

Lemma lifecycle_read_done t src dst buf ec data s tr s' es :
  Forall (copy_loop_ok s tr) directions ->
  Forall copy_op (outstanding s) ->
  (forall r, count (closes r) tr = if get_socket r s then O else 1%nat) ->
  (count tears_down tr <> O -> in_socket_ s = false /\ out_socket_ s = false) ->
  deliver t (read_done src dst buf ec data) s = Some (s', es) ->
  lifecycle s' (tr ++ es).
Proof.
  intros Hloops Hops Hclose Htd Hstep.
  unfold deliver, complete in Hstep.
  destruct (now s <=? t); [|done].
  destruct (_ && _) eqn:Hlib; [|done]. apply andb_prop in Hlib as [Hlen Hdata].
  destruct (take_op _ _) as [rest|] eqn:Htake; [|done].
  assert ((src, dst, buf) ∈ directions) as Hd.
  { eapply copy_op_direction; [done|by eapply take_op_elem|done]. }
  pose proof (proj1 (Forall_forall _ _) Hloops _ Hd) as Hloop.
  destruct (copy_loop_read_done _ _ _ _ _ _ Hloop Htake) as [Hrest Heq].
  pose proof (take_op_Forall _ _ _ _ Htake Hops) as Hops'.
  destruct ec; simpl in Hdata.
  - (* bytes read: write them *)
    unfold_handlers. simpl in Hstep. injection Hstep as <- <-.
    rewrite get_set_buffer, take_filled. split.
    + apply Forall_forall. intros d' Hd'.
      destruct (decide ((src, dst, buf) = d')) as [<-|Hne].
      * simpl. rewrite received_app, delivered_app. simpl.
        destruct (decide (src = src)); [|done]. rewrite !app_nil_r.
        split; [rewrite Heq; by apply prefix_app_r|].
        right. right. exists (length data). split.
        -- rewrite ops_of_snoc, Hrest. simpl. by rewrite decide_True.
        -- rewrite Heq. f_equal.
           rewrite get_buffer_set_outstanding, get_set_buffer.
           by rewrite take_filled.
      * destruct d' as [[src' dst'] buf'].
        frame_loop s Hloops Htake Hd Hd' Hne.
    + right. split_and!.
      * simpl. apply Forall_app. split; [done|]. repeat constructor. by exists (src, dst, buf).
      * intros r. rewrite count_app, Hclose. simpl. destruct r, buf; simpl; lia.
      * rewrite count_app. simpl. rewrite Nat.add_0_r. intros H.
        destruct (Htd H). by destruct buf.
  - (* cancelled: the loop stops *)
    apply bool_decide_eq_true in Hdata as ->.
    unfold_handlers. simpl in Hstep. injection Hstep as <- <-. split.
    + apply Forall_forall. intros d' Hd'.
      destruct (decide ((src, dst, buf) = d')) as [<-|Hne].
      * simpl. rewrite received_app, delivered_app. simpl.
        destruct (decide (src = src)); [|done]. rewrite !app_nil_r.
        split; [by rewrite Heq|]. left.
        simpl. done.
      * destruct d' as [[src' dst'] buf'].
        frame_loop s Hloops Htake Hd Hd' Hne.
    + right. split_and!.
      * simpl. done.
      * intros r. rewrite count_app, Hclose. simpl. destruct r, buf; simpl; lia.
      * rewrite count_app. simpl. rewrite Nat.add_0_r. intros H.
        destruct (Htd H). by destruct buf.
  - (* an error: close both sockets, the loop stops *)
    apply bool_decide_eq_true in Hdata as ->.
    unfold_handlers. simpl in Hstep. injection Hstep as <- <-. split.
    + apply Forall_forall. intros d' Hd'.
      destruct (decide ((src, dst, buf) = d')) as [<-|Hne].
      * simpl. rewrite received_app, delivered_app. simpl.
        destruct (decide (src = src)); [|done]. rewrite !app_nil_r.
        split; [by rewrite Heq|]. left.
        simpl. done.
      * destruct d' as [[src' dst'] buf'].
        frame_loop s Hloops Htake Hd Hd' Hne.
    + right. split_and!.
      * simpl. done.
      * intros r. rewrite count_app, Hclose.
        destruct r, buf; simpl; destruct (in_socket_ s), (out_socket_ s); reflexivity.
      * intros _. by destruct buf.
Qed.

Lemma lifecycle_write_done t src dst buf n ec transferred s tr s' es :
  Forall (copy_loop_ok s tr) directions ->
  Forall copy_op (outstanding s) ->
  (forall r, count (closes r) tr = if get_socket r s then O else 1%nat) ->
  (count tears_down tr <> O -> in_socket_ s = false /\ out_socket_ s = false) ->
  deliver t (write_done src dst buf n ec transferred) s = Some (s', es) ->
  lifecycle s' (tr ++ es).
Proof.
  intros Hloops Hops Hclose Htd Hstep.
  unfold deliver, complete in Hstep.
  destruct (now s <=? t); [|done].
  destruct (_ && _) eqn:Hlib; [|done]. apply andb_prop in Hlib as [Hlen Hall].
  destruct (take_op _ _) as [rest|] eqn:Htake; [|done].
  assert ((src, dst, buf) ∈ directions) as Hd.
  { eapply copy_op_direction; [done|by eapply take_op_elem|done]. }
  pose proof (proj1 (Forall_forall _ _) Hloops _ Hd) as Hloop.
  destruct (copy_loop_write_done _ _ _ _ _ _ _ Hloop Htake) as [Hrest Heq].
  pose proof (take_op_Forall _ _ _ _ Htake Hops) as Hops'.
  set (given := take n (get_buffer buf s)) in *.
  destruct ec; simpl in Hall.
  - (* all bytes passed on: read again *)
    apply Nat.eqb_eq in Hall. rewrite Hall, firstn_all in Hstep.
    unfold_handlers. simpl in Hstep. injection Hstep as <- <-. split.
    + apply Forall_forall. intros d' Hd'.
      destruct (decide ((src, dst, buf) = d')) as [<-|Hne].
      * simpl. rewrite received_app, delivered_app. simpl.
        destruct (decide (dst = dst)); [|done]. rewrite !app_nil_r, Heq.
        split; [done|]. right. left. split; [|done].
        rewrite ops_of_snoc, Hrest. simpl. by rewrite decide_True.
      * destruct d' as [[src' dst'] buf'].
        frame_loop s Hloops Htake Hd Hd' Hne.
    + right. split_and!.
      * simpl. apply Forall_app. split; [done|]. repeat constructor. by exists (src, dst, buf).
      * intros r. rewrite count_app, Hclose. simpl. destruct r; simpl; lia.
      * rewrite count_app. simpl. rewrite Nat.add_0_r. done.
  - (* cancelled: the loop stops *)
    unfold_handlers. simpl in Hstep. injection Hstep as <- <-. split.
    + apply Forall_forall. intros d' Hd'.
      destruct (decide ((src, dst, buf) = d')) as [<-|Hne].
      * simpl. rewrite received_app, delivered_app. simpl.
        destruct (decide (dst = dst)); [|done]. rewrite !app_nil_r, Heq.
        split; [apply prefix_app, prefix_take|]. by left.
      * destruct d' as [[src' dst'] buf'].
        frame_loop s Hloops Htake Hd Hd' Hne.
    + right. split_and!.
      * done.
      * intros r. rewrite count_app, Hclose. simpl. destruct r; simpl; lia.
      * rewrite count_app. simpl. rewrite Nat.add_0_r. done.
  - (* an error: close both sockets, the loop stops *)
    unfold_handlers. simpl in Hstep. injection Hstep as <- <-. split.
    + apply Forall_forall. intros d' Hd'.
      destruct (decide ((src, dst, buf) = d')) as [<-|Hne].
      * simpl. rewrite received_app, delivered_app. simpl.
        destruct (decide (dst = dst)); [|done]. rewrite !app_nil_r, Heq.
        split; [apply prefix_app, prefix_take|]. by left.
      * destruct d' as [[src' dst'] buf'].
        frame_loop s Hloops Htake Hd Hd' Hne.
    + right. split_and!.
      * done.
      * intros r. rewrite count_app, Hclose.
        destruct r; simpl; destruct (in_socket_ s), (out_socket_ s); reflexivity.
      * done.
Qed.

Lemma lifecycle_step t c s tr s' es :
  lifecycle s tr ->
  deliver t c s = Some (s', es) ->
  lifecycle s' (tr ++ es).
Proof.
  intros [Hloops [(Hin & Hcin & Hcout & Htd & Hempty & Hout)|(Hops & Hclose & Htd)]] Hstep.
  - by eapply lifecycle_connecting_step.
  - destruct c.
    + unfold deliver, complete in Hstep. destruct (now s <=? t); [|done].
      destruct (take_op _ _) as [rest|] eqn:Htake; [|done].
      apply take_op_elem in Htake.
      by destruct (proj1 (Forall_forall _ _) Hops _ Htake) as (d & _ & ?).
    + unfold deliver, complete in Hstep. destruct (now s <=? t); [|done].
      destruct (_ && _); [|done].
      destruct (take_op _ _) as [rest|] eqn:Htake; [|done].
      apply take_op_elem in Htake.
      by destruct (proj1 (Forall_forall _ _) Hops _ Htake) as (d & _ & ?).
    + by eapply lifecycle_read_done.
    + by eapply lifecycle_write_done.
Qed.

Lemma lifecycle_run cs s tr s' es :
  lifecycle s tr ->
  run cs s = Some (s', es) ->
  lifecycle s' (tr ++ es).
Proof.
  revert s tr s' es. induction cs as [|[t c] cs IH]; intros s tr s' es Hinv; simpl.
  - intros [= <- <-]. by rewrite app_nil_r.
  - destruct (deliver t c s) as [[s1 e1]|] eqn:Hstep; [|done].
    destruct (run cs s1) as [[s2 e2]|] eqn:Hrun; [|done].
    intros [= <- <-]. rewrite app_assoc.
    eapply IH; [|done]. by eapply lifecycle_step.
Qed.

Lemma lifecycle_started t0 target bs nd n d :
  lifecycle (fst (started t0 target bs nd n d)) (snd (started t0 target bs nd n d)).
Proof.
  unfold started, start, attempt_connection, and_then. simpl.
  destruct (0 >=? n); unfold_handlers; simpl.
  - split; [by apply copy_loops_idle|]. left. split_and!; try done. by left.
  - split; [by apply copy_loops_idle|]. left. split_and!; try done. by right; left.
Qed.
(** ** The relay is exact *)

(** C6: in every state a session reaches, each copy loop has at most one
    operation outstanding, so a read is never issued while a write of the
    loop is pending; while the read is outstanding the bytes passed on to
    the destination are exactly the bytes read from the source, while a
    write is outstanding they are those bytes but for the ones this write
    carries, and they are always a prefix of the bytes read.  A read that
    returns bytes is followed by the write of exactly these bytes. *)
Theorem relay_byte_exact
    (t0 : Z) (target : endpoint) (bs : nat) (nd : bool) (n d : Z)
    (cs : list (Z * completion)) (s' : Session) (es : list event)
    (source destination : socket_ref) (buffer : buffer_ref) :
  run cs (fst (started t0 target bs nd n d)) = Some (s', es) ->
  (source, destination, buffer) ∈ directions ->
  let tr := snd (started t0 target bs nd n d) ++ es in
  let loop := ops_of (source, destination, buffer) (outstanding s') in
  delivered destination tr `prefix_of` received source tr /\
  (loop = []
   \/ (loop = [async_read_some source destination buffer] /\
       delivered destination tr = received source tr)
   \/ (exists k, loop = [async_write source destination buffer k] /\
                 received source tr
                 = delivered destination tr ++ take k (get_buffer buffer s'))) /\
  forall (t : Z) (data : list Byte.byte) (s2 : Session) (es2 : list event),
    deliver t (read_done source destination buffer success data) s' = Some (s2, es2) ->
    es2 = [ev_received source data;
           ev_log DEBUG (text_int "Data read from the sourcePoint. Length: "
                                  (Z.of_nat (length data)));
           ev_write destination data] /\
    ops_of (source, destination, buffer) (outstanding s2)
      = [async_write source destination buffer (length data)].
Proof.
  intros Hrun Hd tr loop.
  pose proof (lifecycle_run _ _ _ _ _ (lifecycle_started t0 target bs nd n d) Hrun)
    as [Hloops Hphase].
  fold tr in Hloops.
  pose proof (proj1 (Forall_forall _ _) Hloops _ Hd) as [Hpre Hcase].
  split; [done|]. split; [done|].
  intros t data s2 es2 Hstep.
  pose proof (deliver_read_done _ _ _ _ _ _ _ _ _ Hstep) as (rest & Htake & Hes & Hout & _).
  split; [done|]. rewrite Hout, ops_of_snoc. simpl. rewrite decide_True by done.
  destruct (copy_loop_read_done s' tr source destination buffer rest) as [-> _]; done.
Qed.
(** ** Sessions inside the forwarder *)
















(** ** Handlers one at a time, and two at once *)

(** The steps of [close_sockets], taken without another thread in between,
    are [close_sockets]. *)
Lemma close_sockets_alone s : alone close_sockets_steps s = close_sockets s.
Proof. reflexivity. Qed.




(** *** A session that has torn down goes away *)




(** ** The scenario, checked against the theorems *)

Example demo_ctor : TCPForwarder_ctor demo_config demo_forwarders = Some demo_listening.
Proof. reflexivity. Qed.

Lemma retry_bound_witness :
  exists (s' : Session) (es : list event),
    run demo_refused (fst (started 0 demo_target 4 true 2 2)) = Some (s', es) /\
    let tr := snd (started 0 demo_target 4 true 2 2) ++ es in
    Z.of_nat (length (connect_times tr)) <= 2 /\
    separated 2 (connect_times tr) /\
    count forwards tr = O /\
    (outstanding s' = [] <-> Z.of_nat (length demo_refused) = 2 * 2) /\
    (outstanding s' = [] -> Z.of_nat (length (connect_times tr)) = 2) /\
    (outstanding s' <> [] ->
     exists c, connect_fails (Z.max (now s') (timer_ s'), c) = true /\
               is_Some (deliver (Z.max (now s') (timer_ s')) c s')).
Proof.
  eexists _, _. split; [vm_compute; reflexivity|].
  apply (retry_bound 0 demo_target 4 true 2 2 demo_refused);
    [lia | reflexivity | vm_compute; reflexivity].
Defined.

Lemma admission_rejection_witness :
  exists (w : TCPForwarder) (tr : list sys_event) (l : Listener),
    sys_run demo_first_client demo_listening = Some (w, tr) /\
    listeners w !! 0%nat = Some l /\
    (0 < accepting l)%nat /\
    active_connections_ w >= max_connections (settings w) /\
    exists w' : TCPForwarder,
      sys_deliver 2 (accept_done 0 success success) w
        = Some (w', tag (at_listener 0)
                      [ev_log WARN (text "max connections reached. Rejecting new connection.");
                       ev_reject; ev_accept]) /\
      active_connections_ w' = active_connections_ w /\
      sessions w' = sessions w /\
      next_session w' = next_session w /\
      listeners w' = listeners w.
Proof.
  eexists _, _, _. split; [vm_compute; reflexivity|].
  split; [reflexivity|]. split; [simpl; lia|]. split; [simpl; lia|].
  eapply (admission_rejection 2 0 success); [reflexivity | simpl; lia | simpl; lia].
Defined.

Lemma read_completion_witness :
  exists (s s' : Session) (es es' : list event),
    forwarding_session 4 = Some (s, es) /\
    deliver 3 (read_done in_socket out_socket data_in (failure 2) []) s = Some (s', es') /\
    exists rest : list op,
      take_op (async_read_some in_socket out_socket data_in) (outstanding s) = Some rest /\
      es' = [ev_received in_socket [];
             ev_log ERROR (text_error "Read error: " (failure 2));
             ev_close in_socket (in_socket_ s);
             ev_close out_socket (out_socket_ s);
             ev_log INFO (text "Sockets closed")] /\
      outstanding s' = rest /\
      in_socket_ s' = false /\ out_socket_ s' = false.
Proof.
  eexists _, _, _, _. split; [vm_compute; reflexivity|].
  split; [vm_compute; reflexivity|].
  eapply (read_completion 3 in_socket out_socket data_in (failure 2) []).
  vm_compute; reflexivity.
Defined.

Lemma admission_counter_invariant_witness :
  exists (w : TCPForwarder) (tr : list sys_event),
    sys_run demo_run demo_listening = Some (w, tr) /\
    active_connections_ w = Z.of_nat (created tr) - Z.of_nat (destroyed tr) /\
    active_connections_ w = Z.of_nat (size (sessions w)) /\
    0 <= active_connections_ w /\
    (forall sid s, sessions w !! sid = Some s -> outstanding s <> []) /\
    forall sid : nat,
      (destroyed_at sid tr <= created_at sid tr <= 1)%nat /\
      (is_Some (sessions w !! sid) -> created_at sid tr = 1%nat /\ destroyed_at sid tr = O) /\
      (created_at sid tr = 1%nat -> sessions w !! sid = None -> destroyed_at sid tr = 1%nat).
Proof.
  eexists _, _. split; [vm_compute; reflexivity|].
  apply (admission_counter_invariant demo_config demo_forwarders demo_listening _ demo_run);
    [unfold Int.in_range, Int.INT_MIN, Int.INT_MAX; simpl; lia
    | reflexivity | vm_compute; reflexivity].
Defined.

Lemma relay_byte_exact_witness :
  exists (s' : Session) (es : list event),
    run demo_relay (fst (started 0 demo_target 4 true 3 2)) = Some (s', es) /\
    (in_socket, out_socket, data_in) ∈ directions /\
    let tr := snd (started 0 demo_target 4 true 3 2) ++ es in
    let loop := ops_of (in_socket, out_socket, data_in) (outstanding s') in
    delivered out_socket tr `prefix_of` received in_socket tr /\
    (loop = []
     \/ (loop = [async_read_some in_socket out_socket data_in] /\
         delivered out_socket tr = received in_socket tr)
     \/ (exists k, loop = [async_write in_socket out_socket data_in k] /\
                   received in_socket tr
                   = delivered out_socket tr ++ take k (get_buffer data_in s'))) /\
    forall (t : Z) (data : list Byte.byte) (s2 : Session) (es2 : list event),
      deliver t (read_done in_socket out_socket data_in success data) s' = Some (s2, es2) ->
      es2 = [ev_received in_socket data;
             ev_log DEBUG (text_int "Data read from the sourcePoint. Length: "
                                    (Z.of_nat (length data)));
             ev_write out_socket data] /\
      ops_of (in_socket, out_socket, data_in) (outstanding s2)
        = [async_write in_socket out_socket data_in (length data)].
Proof.
  eexists _, _. split; [vm_compute; reflexivity|].
  split; [apply list_elem_of_here|].
  apply (relay_byte_exact 0 demo_target 4 true 3 2 demo_relay);
    [vm_compute; reflexivity | apply list_elem_of_here].
Defined.

Lemma accept_loop_never_stops_witness :
  exists (w : TCPForwarder) (tr : list sys_event),
    sys_run demo_run demo_listening = Some (w, tr) /\
    listeners w = listeners demo_listening /\
    forall (i : nat) (l : Listener), listeners w !! i = Some l ->
      accepting l = 1%nat /\
      forall (t : Z) (ec nodelay_ec : error_code),
      exists (w' : TCPForwarder) (es : list sys_event),
        sys_deliver t (accept_done i ec nodelay_ec) w = Some (w', es) /\
        last es = Some (at_listener i, ev_accept) /\
        listeners w' = listeners w /\
        (is_error ec = true ->
         es = tag (at_listener i) [ev_log ERROR (text_error "Accept error: " ec); ev_accept] /\
         sessions w' = sessions w /\ active_connections_ w' = active_connections_ w).
Proof.
  eexists _, _. split; [vm_compute; reflexivity|].
  eapply (accept_loop_never_stops demo_config demo_forwarders demo_listening _ demo_run);
    [reflexivity | vm_compute; reflexivity].
Defined.



Lemma zero_max_connections_rejects_all_witness :
  exists (w : TCPForwarder) (tr : list sys_event),
    sys_run demo_knocks demo_closed_door = Some (w, tr) /\
    accepted demo_knocks = 2%nat /\
    created tr = O /\ sessions w = ∅ /\ active_connections_ w = 0 /\
    rejected tr = accepted demo_knocks.
Proof.
  eexists _, _. split; [vm_compute; reflexivity|].
  split; [reflexivity|].
  apply (zero_max_connections_rejects_all demo_config_zero demo_forwarders demo_closed_door
           _ demo_knocks);
    [reflexivity | reflexivity | vm_compute; reflexivity].
Defined.

(** * Further properties of the code *)

(** ** More on the expansion of the rules *)

(** A range whose end lies before its start yields no listener and no
    error: the rule is dropped in silence. *)
Theorem empty_range_no_listener (f : ForwardRule) (start_port end_port : Z) :
  port_range f = Some (start_port, end_port) ->
  end_port < start_port ->
  expand_forwarder f = Some [].
Proof.
  intros Hrange Hlt. unfold expand_forwarder. rewrite Hrange.
  replace (Z.to_nat (end_port - start_port + 1)) with O by lia. simpl.
  destruct (Z.leb_spec start_port end_port); [lia|done].
Qed.

Lemma empty_range_no_listener_witness : expand_forwarder rule_backwards = Some [].
Proof. apply (empty_range_no_listener rule_backwards 8002 8000); [reflexivity|lia]. Defined.

Lemma expand_forwarder_length f ps :
  expand_forwarder f = Some ps -> length ps = rule_size f.
Proof.
  unfold expand_forwarder, rule_size.
  destruct (port_range f) as [[start_port end_port]|].
  - intros H%range_loop_length. lia.
  - destruct (listen_port f), (target_port f); try done. by intros [= <-].
Qed.

Lemma expand_forwarders_length fs ps :
  expand_forwarders fs = Some ps -> length ps = sum_list (map rule_size fs).
Proof.
  revert ps. induction fs as [|f fs IH]; intros ps; simpl.
  - by intros [= <-].
  - destruct (expand_forwarder f) as [qs|] eqn:Hf; [|done].
    destruct (expand_forwarders fs) as [rs|]; [|done]. intros [= <-].
    rewrite length_app, (expand_forwarder_length _ _ Hf), (IH rs); done.
Qed.

Lemma expand_forwarders_None fs :
  expand_forwarders fs = None <-> Exists (fun f => expand_forwarder f = None) fs.
Proof.
  induction fs as [|f fs IH]; simpl.
  - split; [done|by inversion 1].
  - destruct (expand_forwarder f) as [qs|] eqn:Hf.
    + destruct (expand_forwarders fs) as [rs|].
      * split; [done|]. inversion 1 as [|? ? Hex]; [congruence|].
        by apply IH in Hex.
      * split; [|done]. intros _. right. by apply IH.
    + split; [|done]. intros _. by left.
Qed.

(** Whenever the constructor returns, no rule was skipped or cut short:
    every rule could be expanded (a rule without a range has both
    [listen_port] and [target_port]), there are as many listeners as the
    rules stand for, one for each port of a range and one for a rule
    without a range, each with one accept outstanding, and the forwarder
    begins with no session and the counter at 0.  A rule that cannot be
    expanded therefore makes the constructor throw; so may the
    environment (an address that is no literal, a port that cannot be
    bound, a value that does not convert), which is not modelled. *)
Theorem constructor_makes_all_listeners
    (cfg : ForwarderConfig) (fs : list ForwardRule) (w : TCPForwarder) :
  TCPForwarder_ctor cfg fs = Some w ->
  Forall (fun f => expand_forwarder f <> None /\
                   (port_range f = None ->
                    is_Some (listen_port f) /\ is_Some (target_port f))) fs /\
  length (listeners w) = sum_list (map rule_size fs) /\
  Forall (fun l => accepting l = 1%nat) (listeners w) /\
  sessions w = ∅ /\ active_connections_ w = 0 /\ settings w = cfg.
Proof.
  unfold TCPForwarder_ctor.
  destruct (expand_forwarders fs) as [ps|] eqn:Hps; [|done].
  intros [= <-]. simpl. rewrite length_map, (expand_forwarders_length _ _ Hps).
  split_and!; try done.
  - apply Forall_forall. intros f Hf.
    assert (expand_forwarder f <> None) as Hne.
    { intros Hnone.
      assert (expand_forwarders fs = None) as Habs; [|congruence].
      apply expand_forwarders_None. apply Exists_exists. by exists f. }
    split; [done|]. intros Hrange. unfold expand_forwarder in Hne.
    rewrite Hrange in Hne.
    destruct (listen_port f), (target_port f); try done; split; eauto.
  - apply Forall_forall. intros l (p & -> & _)%list_elem_of_fmap. done.
Qed.

Lemma constructor_makes_all_listeners_witness :
  Forall (fun f => expand_forwarder f <> None /\
                   (port_range f = None ->
                    is_Some (listen_port f) /\ is_Some (target_port f)))
         demo_forwarders /\
  length (listeners demo_listening) = sum_list (map rule_size demo_forwarders) /\
  Forall (fun l => accepting l = 1%nat) (listeners demo_listening) /\
  sessions demo_listening = ∅ /\ active_connections_ demo_listening = 0 /\
  settings demo_listening = demo_config.
Proof.
  apply (constructor_makes_all_listeners demo_config demo_forwarders demo_listening).
  reflexivity.
Defined.





Lemma HealthChecker_beats_in_scope_witness :
  heartbeats (io_context_run (expiries 0 10 3) (health_start 0 10)) = 3%nat /\
  cancelled (io_context_run (expiries 0 10 3) (health_start 0 10)) = O /\
  checker (io_context_run (expiries 0 10 3) (health_start 0 10))
  = Some {| hc_expiry := 0 + Z.of_nat 4 * 10; hc_waiting := true; interval_ := 10 |}.
Proof. apply (HealthChecker_beats_in_scope 0 10 3). lia. Defined.

(** ** The health checker under any schedule of the reactor *)

Lemma poll_alive T e interval log :
  poll T {| checker := Some {| hc_expiry := e; hc_waiting := true; interval_ := interval |};
            cancelled := 0; health_log := log |}
  = if e <=? T
    then {| checker := Some {| hc_expiry := T + interval; hc_waiting := true;
                               interval_ := interval |};
            cancelled := 0; health_log := log ++ [heartbeat] |}
    else {| checker := Some {| hc_expiry := e; hc_waiting := true; interval_ := interval |};
            cancelled := 0; health_log := log |}.
Proof. unfold poll. simpl. by destruct (e <=? T). Qed.

Lemma io_context_run_alive ticks e interval log :
  io_context_run ticks
    {| checker := Some {| hc_expiry := e; hc_waiting := true; interval_ := interval |};
       cancelled := 0; health_log := log |}
  = {| checker := Some {| hc_expiry := match last (beats_at e interval ticks) with
                                       | Some T => T + interval
                                       | None => e
                                       end;
                          hc_waiting := true; interval_ := interval |};
       cancelled := 0;
       health_log := log ++ repeat heartbeat (length (beats_at e interval ticks)) |}.
Proof.
  revert e log. induction ticks as [|T ticks IH]; intros e log.
  - simpl. by rewrite app_nil_r.
  - unfold io_context_run in *. cbn [fold_left]. rewrite poll_alive.
    cbn [beats_at]. destruct (e <=? T).
    + rewrite IH. cbn [length repeat]. rewrite <- app_assoc. cbn [app].
      destruct (beats_at (T + interval) interval ticks) as [|T' l]; [done|].
      rewrite last_cons_cons.
      destruct (last (T' :: l)) eqn:Hl; [done|]. by apply last_None in Hl.
    + apply IH.
Qed.

Lemma count_repeat_heartbeat n : count is_heartbeat (repeat heartbeat n) = n.
Proof. induction n as [|n IH]; simpl; [done|]. by rewrite IH. Qed.

Lemma beats_at_length e interval ticks :
  (length (beats_at e interval ticks) <= length ticks)%nat.
Proof.
  revert e. induction ticks as [|T ticks IH]; intros e; simpl; [done|].
  destruct (e <=? T); simpl.
  - specialize (IH (T + interval)). lia.
  - specialize (IH e). lia.
Qed.

(** While the object is alive, whatever the times at which the reactor
    looks at the timer, also when it comes late: a wait is outstanding
    after every turn and none is cancelled; the heartbeats logged are one
    for each turn that found the timer expired, the first not before
    [interval] after [start], and each such turn sets the timer [interval]
    on from its own time; a turn before the expiry changes nothing, and
    the next turn at or after it logs exactly one heartbeat and sets the
    timer again. *)
Theorem HealthChecker_beats_while_alive (t interval : Z) (ticks : list Z) :
  let h := io_context_run ticks (health_start t interval) in
  let fired := beats_at (t + interval) interval ticks in
  let e := match last fired with Some T => T + interval | None => t + interval end in
  checker h = Some {| hc_expiry := e; hc_waiting := true; interval_ := interval |} /\
  cancelled h = O /\
  heartbeats h = length fired /\
  (heartbeats h <= length ticks)%nat /\
  forall T : Z,
    (e <= T ->
       heartbeats (poll T h) = S (heartbeats h) /\
       health_log (poll T h) = health_log h ++ [heartbeat] /\
       cancelled (poll T h) = O /\
       checker (poll T h)
         = Some {| hc_expiry := T + interval; hc_waiting := true;
                   interval_ := interval |}) /\
    (T < e -> poll T h = h).
Proof.
  intros h fired e. subst h. unfold health_start, schedule_check. cbn -[io_context_run].
  rewrite io_context_run_alive. fold fired. fold e. cbn [checker cancelled].
  assert (forall log, count is_heartbeat
            (log ++ repeat heartbeat (length fired))
          = (count is_heartbeat log + length fired)%nat) as Hcount.
  { intros log. by rewrite count_app, count_repeat_heartbeat. }
  split_and!; try done.
  - unfold heartbeats. cbn [health_log]. by rewrite Hcount.
  - unfold heartbeats. cbn [health_log]. rewrite Hcount. simpl.
    apply beats_at_length.
  - intros T. rewrite poll_alive. split.
    + intros HT. destruct (Z.leb_spec e T); [|lia].
      unfold heartbeats. cbn [health_log checker cancelled].
      split_and!; try done.
      rewrite count_app. simpl. lia.
    + intros HT. by destruct (Z.leb_spec e T); [lia|].
Qed.

Lemma HealthChecker_beats_while_alive_witness :
  let h := io_context_run [5; 35; 40; 50] (health_start 0 10) in
  beats_at (0 + 10) 10 [5; 35; 40; 50] = [35; 50] /\
  checker h = Some {| hc_expiry := 60; hc_waiting := true; interval_ := 10 |} /\
  cancelled h = O /\
  heartbeats h = 2%nat.
Proof.
  pose proof (HealthChecker_beats_while_alive 0 10 [5; 35; 40; 50]) as H.
  cbv zeta in H. destruct H as (Hc & Hn & Hb & _).
  split; [reflexivity|]. split; [exact Hc|]. split; [exact Hn|exact Hb].
Defined.


(** ** Admission below the ceiling *)

(** With [retry_attempts] at 1 or more, a connection accepted while the
    counter is below [max_connections] gets a session of its own: the
    counter goes up by one, the session is on the heap with its first
    connect attempt outstanding, issued within the accept handler towards
    the target of the listener, and the listener accepts again.  (With
    [retry_attempts] at 0 or below the session does not outlive the
    handler.) *)
Theorem admission_accept
    (t : Z) (i : nat) (nodelay_ec : error_code) (w : TCPForwarder) (l : Listener) :
  listeners w !! i = Some l ->
  (0 < accepting l)%nat ->
  0 <= active_connections_ w < max_connections (settings w) ->
  max_connections (settings w) <= Int.INT_MAX ->
  0 < retry_attempts (settings w) ->
  exists (w' : TCPForwarder) (s : Session) (es : list sys_event),
    sys_deliver t (accept_done i success nodelay_ec) w = Some (w', es) /\
    active_connections_ w' = active_connections_ w + 1 /\
    sessions w' = <[next_session w := s]> (sessions w) /\
    next_session w' = S (next_session w) /\
    outstanding s = [async_connect] /\
    target_endpoint_ s = target_endpoint l /\
    connect_times (session_trace (next_session w) es) = [t] /\
    created es = 1%nat /\ destroyed es = O /\
    last es = Some (at_listener i, ev_accept) /\
    listeners w' = listeners w.
Proof.
  intros Hl Hacc Hroom Hmax Hretry. simpl. rewrite Hl.
  destruct (accepting l) as [|n] eqn:Hn; [lia|].
  unfold on_accept, plz_accept. simpl.
  destruct (Z.geb_spec (active_connections_ w) (max_connections (settings w))); [lia|].
  unfold make_session, Session_ctor. simpl.
  rewrite wrap_in_range
    by (unfold Int.in_range, Int.INT_MIN, Int.INT_MAX in *; lia).
  unfold start, attempt_connection, and_then. simpl.
  destruct (retry_attempts (settings w)) as [|p|p] eqn:Hp; [lia| |lia].
  unfold_handlers. simpl. unfold drop_self. simpl.
  rewrite lookup_insert_eq. simpl.
  eexists _, _, _. split; [reflexivity|]. simpl.
  split_and!; try done.
  - rewrite decide_True by done. simpl.
    destruct (is_error nodelay_ec); simpl; rewrite ?decide_True by done; simpl;
      rewrite ?decide_True by done; done.
  - unfold created. simpl. by destruct (is_error nodelay_ec).
  - unfold destroyed. simpl. by destruct (is_error nodelay_ec).
  - by apply (rearm_listener i l n).
Qed.

Lemma admission_accept_witness :
  exists (w' : TCPForwarder) (s : Session) (es : list sys_event),
    sys_deliver 0 (accept_done 0 success success) demo_listening = Some (w', es) /\
    active_connections_ w' = active_connections_ demo_listening + 1 /\
    sessions w' = <[next_session demo_listening := s]> (sessions demo_listening) /\
    next_session w' = S (next_session demo_listening) /\
    outstanding s = [async_connect] /\
    target_endpoint_ s = {| address := "127.0.0.1"; port := 9090 |} /\
    connect_times (session_trace (next_session demo_listening) es) = [0] /\
    created es = 1%nat /\ destroyed es = O /\
    last es = Some (at_listener 0, ev_accept) /\
    listeners w' = listeners demo_listening.
Proof.
  eapply (admission_accept 0 0 success demo_listening
            {| acceptor := {| address := "127.0.0.1"; port := 8080 |};
               target_endpoint := {| address := "127.0.0.1"; port := 9090 |};
               accepting := 1 |});
    [reflexivity | simpl; lia | simpl; lia | unfold Int.INT_MAX; simpl; lia | simpl; lia].
Defined.



(** ** More on the handlers of a session *)

(** What the handler of a write does, by the error code of the write: after
    a write that passed on all its bytes the loop issues its next read;
    after a write that failed it closes both sockets and issues nothing;
    after a cancelled write it does nothing at all.  In each case the
    bytes the write did pass on are a prefix of the bytes it was given. *)
Theorem write_completion
    (t : Z) (source destination : socket_ref) (buffer : buffer_ref) (n : nat)
    (ec : error_code) (transferred : nat) (s s' : Session) (es : list event) :
  deliver t (write_done source destination buffer n ec transferred) s = Some (s', es) ->
  let given := take n (get_buffer buffer s) in
  exists rest : list op,
    take_op (async_write source destination buffer n) (outstanding s) = Some rest /\
    match ec with
    | success =>
        es = [ev_delivered destination given;
              ev_log TRACE (text "Data forwarded successfully.");
              ev_read source] /\
        outstanding s' = rest ++ [async_read_some source destination buffer] /\
        in_socket_ s' = in_socket_ s /\ out_socket_ s' = out_socket_ s
    | operation_aborted =>
        es = [ev_delivered destination (take transferred given)] /\
        outstanding s' = rest /\
        in_socket_ s' = in_socket_ s /\ out_socket_ s' = out_socket_ s
    | failure _ =>
        es = [ev_delivered destination (take transferred given);
              ev_log ERROR (text_error "Write error: " ec);
              ev_close in_socket (in_socket_ s);
              ev_close out_socket (out_socket_ s);
              ev_log INFO (text "Sockets closed")] /\
        outstanding s' = rest /\
        in_socket_ s' = false /\ out_socket_ s' = false
    end.
Proof.
  intros H. cbv zeta. unfold deliver, complete in H.
  set (given := take n (get_buffer buffer s)) in *.
  destruct (now s <=? t); [|done].
  destruct (_ && _) eqn:Hlib; [|done].
  apply andb_prop in Hlib as [_ Hall].
  destruct (take_op _ _) as [rest|]; [|done]. exists rest. split; [done|].
  destruct ec; simpl in Hall.
  - apply Nat.eqb_eq in Hall. rewrite Hall, firstn_all in H.
    unfold_handlers. simpl in H. by injection H as <- <-.
  - unfold_handlers. simpl in H. by injection H as <- <-.
  - unfold_handlers. simpl in H. by injection H as <- <-.
Qed.

Lemma write_completion_witness :
  exists (s s' : Session) (e0 es : list event),
    run demo_relay (fst (started 0 demo_target 4 true 3 2)) = Some (s, e0) /\
    deliver 6 (write_done in_socket out_socket data_in 1 (failure 32) 0) s = Some (s', es) /\
    let given := take 1 (get_buffer data_in s) in
    exists rest : list op,
      take_op (async_write in_socket out_socket data_in 1) (outstanding s) = Some rest /\
      es = [ev_delivered out_socket (take 0 given);
            ev_log ERROR (text_error "Write error: " (failure 32));
            ev_close in_socket (in_socket_ s);
            ev_close out_socket (out_socket_ s);
            ev_log INFO (text "Sockets closed")] /\
      outstanding s' = rest /\
      in_socket_ s' = false /\ out_socket_ s' = false.
Proof.
  eexists _, _, _, _. split; [vm_compute; reflexivity|].
  split; [vm_compute; reflexivity|].
  eapply (write_completion 6 in_socket out_socket data_in 1 (failure 32) 0).
  vm_compute; reflexivity.
Defined.

(** ** Giving up without a teardown *)

Lemma untouched_step k t c s tr s' es :
  connecting k s tr -> untouched s tr ->
  connect_fails (t, c) = true ->
  deliver t c s = Some (s', es) ->
  untouched s' (tr ++ es).
Proof.
  unfold connecting, untouched.
  intros (_ & _ & Hphase) (Hin & Hout & Hcl & Htd) Hfail Hstep.
  rewrite connect_times_app, !count_app, Hcl, Htd.
  destruct Hphase as [(Ho & _ & Hlen & _)|[(Ho & Ha & Hlen & _)|(Ho & _)]].
  - unfold deliver, complete in Hstep. rewrite Ho in Hstep.
    destruct (now s <=? t); [|done].
    destruct c; simpl in Hstep; try done; [|by repeat case_match..].
    unfold connect_fails in Hfail. simpl in Hfail.
    unfold on_connect in Hstep. rewrite Hfail in Hstep.
    unfold_handlers. simpl in Hstep. injection Hstep as <- <-. simpl.
    by rewrite app_nil_r.
  - unfold deliver, complete in Hstep. rewrite Ho in Hstep.
    destruct (now s <=? t); [|done].
    destruct c; simpl in Hstep; try done; [|by repeat case_match..].
    destruct (negb (is_error ec) && (timer_ s <=? t)); [|done]. simpl in Hstep.
    unfold on_wait, attempt_connection in Hstep. simpl in Hstep.
    destruct (current_attempt_ s >=? retry_attempts_ s).
    + unfold_handlers. injection Hstep as <- <-. simpl. by rewrite app_nil_r.
    + unfold_handlers. simpl in Hstep. injection Hstep as <- <-. simpl.
      split_and!; try done. by destruct (connect_times tr).
  - unfold deliver, complete in Hstep. rewrite Ho in Hstep. by repeat case_match.
Qed.

Lemma untouched_run cs k s tr s' es :
  connecting k s tr -> untouched s tr ->
  forallb connect_fails cs = true ->
  run cs s = Some (s', es) ->
  untouched s' (tr ++ es).
Proof.
  revert k s tr s' es.
  induction cs as [|[t c] cs IH]; intros k s tr s' es Hc Hu; cbn [run forallb].
  - intros _ [= <- <-]. by rewrite app_nil_r.
  - intros [Hf Hfs]%andb_prop.
    destruct (deliver t c s) as [[s1 e1]|] eqn:Hstep; [|done].
    destruct (run cs s1) as [[s2 e2]|] eqn:Hrun; [|done].
    intros [= <- <-]. rewrite app_assoc.
    eapply (IH (k + 1)); [| |done|done].
    + by eapply connecting_step.
    + by eapply untouched_step.
Qed.

(** A session that gives up connecting never calls [close_sockets] and
    never closes a socket itself: through all the failed attempts, and
    still when nothing is outstanding, the inbound socket is open.  Only
    the destructor closes it, together with the outbound socket if a
    connect was ever issued on it. *)
Theorem retry_exhaustion_closes_nothing
    (t0 : Z) (target : endpoint) (bs : nat) (nd : bool) (n d : Z)
    (cs : list (Z * completion)) (s' : Session) (es : list event) (c : Z) :
  0 <= n ->
  forallb connect_fails cs = true ->
  run cs (fst (started t0 target bs nd n d)) = Some (s', es) ->
  let tr := snd (started t0 target bs nd n d) ++ es in
  count tears_down tr = O /\ count is_close tr = O /\
  in_socket_ s' = true /\
  count (closes in_socket) (snd (Session_dtor s' c)) = 1%nat /\
  count (closes out_socket) (snd (Session_dtor s' c))
  = match connect_times tr with [] => O | _ :: _ => 1%nat end.
Proof.
  intros Hn Hfail Hrun tr.
  destruct (connecting_started t0 target bs nd n d Hn) as (Hc0 & _ & _).
  assert (untouched (fst (started t0 target bs nd n d))
                    (snd (started t0 target bs nd n d))) as Hu0.
  { unfold untouched. destruct n as [|p|p]; [| |lia]; by cbn. }
  pose proof (untouched_run _ _ _ _ _ _ Hc0 Hu0 Hfail Hrun) as (Hin & Hout & Hcl & Htd).
  fold tr in Hout, Hcl, Htd. split_and!; try done.
  - unfold Session_dtor, socket_dtor. simpl. rewrite Hin.
    by destruct (out_socket_ s').
  - unfold Session_dtor, socket_dtor. simpl. rewrite Hin, Hout.
    by destruct (connect_times tr).
Qed.

Lemma retry_exhaustion_closes_nothing_witness :
  exists (s' : Session) (es : list event),
    run demo_refused (fst (started 0 demo_target 4 true 2 2)) = Some (s', es) /\
    outstanding s' = [] /\
    let tr := snd (started 0 demo_target 4 true 2 2) ++ es in
    count tears_down tr = O /\ count is_close tr = O /\
    in_socket_ s' = true /\
    count (closes in_socket) (snd (Session_dtor s' 1)) = 1%nat /\
    count (closes out_socket) (snd (Session_dtor s' 1))
    = match connect_times tr with [] => O | _ :: _ => 1%nat end.
Proof.
  eexists _, _. split; [vm_compute; reflexivity|]. split; [reflexivity|].
  apply (retry_exhaustion_closes_nothing 0 demo_target 4 true 2 2 demo_refused);
    [lia | reflexivity | vm_compute; reflexivity].
Defined.

(** ** The size of what is moved *)

Lemma chunks_step bs t c s s' es :
  buffers_sized s -> buffer_size_ s = bs ->
  deliver t c s = Some (s', es) ->
  buffers_sized s' /\ buffer_size_ s' = bs /\ Forall (chunk_within bs) es.
Proof.
  unfold buffers_sized. intros [Hi Ho] Hbs Hstep.
  unfold deliver, complete in Hstep.
  destruct (now s <=? t); [|done].
  destruct c as [ec nodelay_ec|ec|source destination buffer ec data
                |source destination buffer n write_ec transferred].
  - destruct (take_op _ _); [|done]. injection Hstep as Hstep.
    unfold on_connect in Hstep. unfold_handlers. unfold set_no_delay_out, logger_, emit in Hstep.
    destruct (is_error ec), (is_error nodelay_ec); simpl in Hstep;
      injection Hstep as <- <-; simpl; split_and!; try done; by repeat constructor.
  - destruct (_ && _); [|done]. destruct (take_op _ _); [|done].
    injection Hstep as Hstep. unfold on_wait, attempt_connection in Hstep. simpl in Hstep.
    destruct (_ >=? _); unfold_handlers; simpl in Hstep;
      injection Hstep as <- <-; simpl; split_and!; try done; by repeat constructor.
  - destruct (_ && _) eqn:Hlib; [|done]. apply andb_prop in Hlib as [Hlen _].
    apply Nat.leb_le in Hlen.
    destruct (take_op _ _); [|done].
    assert (length (get_buffer buffer s) = bs) as Hb by (by destruct buffer; simpl; lia).
    assert (length (data ++ drop (length data) (get_buffer buffer s)) = bs) as Hfill.
    { rewrite length_app, length_drop. lia. }
    destruct ec; unfold_handlers; simpl in Hstep; injection Hstep as <- <-;
      rewrite ?get_buffer_set_now, ?get_buffer_set_outstanding in *;
      (split_and!;
       [ destruct buffer; simpl in *; lia
       | destruct buffer; simpl in *; lia
       | by destruct buffer
       | repeat constructor; simpl; rewrite ?length_take; lia ]).
  - destruct (_ && _) eqn:Hlib; [|done].
    destruct (take_op _ _); [|done].
    assert (length (get_buffer buffer s) = bs) as Hb by (by destruct buffer; simpl; lia).
    destruct write_ec; unfold_handlers; simpl in Hstep; injection Hstep as <- <-;
      (split_and!;
       [ simpl; lia | simpl; lia | done
       | repeat constructor; simpl; rewrite ?length_take; lia ]).
Qed.

(** Whatever a session reads, writes or passes on in one operation is at
    most [buffer_size] bytes, and its two buffers keep that size. *)
Theorem chunks_within_buffer
    (t0 : Z) (target : endpoint) (bs : nat) (nd : bool) (n d : Z)
    (cs : list (Z * completion)) (s' : Session) (es : list event) :
  run cs (fst (started t0 target bs nd n d)) = Some (s', es) ->
  Forall (chunk_within bs) (snd (started t0 target bs nd n d) ++ es) /\
  buffers_sized s' /\ buffer_size_ s' = bs.
Proof.
  assert (forall cs s es0 s' es, buffers_sized s -> buffer_size_ s = bs ->
            Forall (chunk_within bs) es0 ->
            run cs s = Some (s', es) ->
            Forall (chunk_within bs) (es0 ++ es) /\ buffers_sized s' /\ buffer_size_ s' = bs)
    as Hrun.
  { clear. induction cs as [|[t c] cs IH]; intros s es0 s' es Hb Hs H0; simpl.
    - intros [= <- <-]. by rewrite app_nil_r.
    - destruct (deliver t c s) as [[s1 e1]|] eqn:Hstep; [|done].
      destruct (run cs s1) as [[s2 e2]|] eqn:Hr; [|done]. intros [= <- <-].
      destruct (chunks_step _ _ _ _ _ _ Hb Hs Hstep) as (Hb1 & Hs1 & He1).
      rewrite app_assoc. eapply IH; [done|done| |done].
      apply Forall_app. by split. }
  intros H. eapply Hrun; [| | |done].
  - unfold started, start, attempt_connection, buffers_sized, and_then. simpl.
    destruct (0 >=? n); unfold_handlers; simpl; by rewrite !repeat_length.
  - unfold started, start, attempt_connection, and_then. simpl.
    by destruct (0 >=? n); unfold_handlers.
  - unfold started, start, attempt_connection, and_then. simpl.
    destruct (0 >=? n); unfold_handlers; simpl; by repeat constructor.
Qed.

Lemma chunks_within_buffer_witness :
  exists (s' : Session) (es : list event),
    run demo_write_fails (fst (started 0 demo_target 4 true 3 2)) = Some (s', es) /\
    Forall (chunk_within 4) (snd (started 0 demo_target 4 true 3 2) ++ es) /\
    buffers_sized s' /\ buffer_size_ s' = 4%nat.
Proof.
  eexists _, _. split; [vm_compute; reflexivity|].
  apply (chunks_within_buffer 0 demo_target 4 true 3 2 demo_write_fails).
  vm_compute; reflexivity.
Defined.

(** ** The logger *)


Lemma Logger_step_fixed (l : Logger.state) (a : Logger.action) :
  Logger.enabled_ (Logger.step l a) = Logger.enabled_ l /\
  Logger.log_level_ (Logger.step l a) = Logger.log_level_ l.
Proof.
  destruct a as [level message msg_level time|]; simpl.
  - unfold Logger.log. by destruct (_ && _).
  - unfold Logger.process_queue.
    destruct (Logger.worker_thread_ l); [|done].
    by destruct (Logger.log_queue_ l), (Logger.stop_worker_ l).
Qed.

Lemma Logger_passed_fixed (l l' : Logger.state) (acts : list Logger.action) :
  Logger.enabled_ l' = Logger.enabled_ l ->
  Logger.log_level_ l' = Logger.log_level_ l ->
  Logger.passed l' acts = Logger.passed l acts.
Proof.
  intros He Hl. induction acts as [|[level message msg_level time|] acts IH]; simpl.
  - done.
  - unfold Logger.must_log. rewrite He, Hl, IH. done.
  - done.
Qed.

(** Written and queued lines together are the lines that passed, in order. *)
Lemma Logger_run_fifo (acts : list Logger.action) (l : Logger.state) :
  Logger.logfile_ (Logger.run acts l) ++ Logger.log_queue_ (Logger.run acts l)
  = Logger.logfile_ l ++ Logger.log_queue_ l ++ Logger.passed l acts.
Proof.
  revert l. induction acts as [|a acts IH]; intros l; simpl.
  - by rewrite app_nil_r.
  - change (fold_left Logger.step acts (Logger.step l a))
      with (Logger.run acts (Logger.step l a)).
    rewrite IH.
    destruct (Logger_step_fixed l a) as [He Hl].
    rewrite (Logger_passed_fixed l _ acts He Hl).
    destruct a as [level message msg_level time|]; simpl.
    + unfold Logger.log. destruct (_ && _); simpl; [|done].
      by rewrite <- !app_assoc.
    + unfold Logger.process_queue.
      destruct (Logger.worker_thread_ l); [|done].
      destruct (Logger.log_queue_ l) eqn:Hq, (Logger.stop_worker_ l); simpl;
        rewrite ?Hq, ?app_nil_r; try done; by rewrite <- ?app_assoc.
Qed.

Lemma Logger_run_fixed (acts : list Logger.action) (l : Logger.state) :
  Logger.enabled_ (Logger.run acts l) = Logger.enabled_ l /\
  Logger.log_level_ (Logger.run acts l) = Logger.log_level_ l /\
  (Logger.stop_worker_ l = false ->
   Logger.stop_worker_ (Logger.run acts l) = false /\
   Logger.worker_thread_ (Logger.run acts l) = Logger.worker_thread_ l).
Proof.
  revert l. induction acts as [|a acts IH]; intros l; simpl; [done|].
  change (fold_left Logger.step acts (Logger.step l a))
    with (Logger.run acts (Logger.step l a)).
  destruct (IH (Logger.step l a)) as (He & Hl & Hs).
  destruct (Logger_step_fixed l a) as [He' Hl'].
  split; [congruence|]. split; [congruence|]. intros Hstop.
  assert (Logger.stop_worker_ (Logger.step l a) = false /\
          Logger.worker_thread_ (Logger.step l a) = Logger.worker_thread_ l) as [H1 H2].
  { destruct a as [level message msg_level time|]; simpl.
    - unfold Logger.log. by destruct (_ && _).
    - unfold Logger.process_queue.
      destruct (Logger.worker_thread_ l) eqn:Hw; [|done].
      rewrite Hstop. destruct (Logger.log_queue_ l); simpl; by rewrite ?Hw. }
  destruct (Hs H1) as [H3 H4]. split; congruence.
Qed.

(** Between construction and destruction, however the calls of [log] and
    the turns of the worker interleave, the lines in the file followed by
    the lines in the queue are exactly the lines of the calls that passed
    the filter, in the order of the calls: none is lost, repeated or
    reordered. *)
Theorem logger_fifo
    (enabled opened : bool) (file level : string) (acts : list Logger.action) :
  let l0 := Logger.ctor enabled file level opened in
  let l := Logger.run acts l0 in
  Logger.logfile_ l ++ Logger.log_queue_ l = Logger.passed l0 acts.
Proof. intros l0 l. unfold l. by rewrite Logger_run_fifo. Qed.

(** The destructor of an enabled logger leaves the queue empty and every
    line that passed the filter in the file, in call order, and the worker
    has ended. *)
Theorem logger_dtor_flushes
    (file level : string) (acts : list Logger.action) :
  let l0 := Logger.ctor true file level true in
  let l := Logger.dtor (Logger.run acts l0) in
  Logger.logfile_ l = Logger.passed l0 acts /\
  Logger.log_queue_ l = [] /\
  Logger.worker_thread_ l = false.
Proof.
  intros l0 l. unfold l, Logger.dtor.
  destruct (Logger_run_fixed acts l0) as (He & _ & Hs).
  destruct (Hs eq_refl) as [_ Hw]. rewrite He. simpl.
  unfold Logger.process_queue. simpl. rewrite Hw. simpl.
  pose proof (Hfifo := Logger_run_fifo acts l0). simpl in Hfifo.
  destruct (Logger.log_queue_ (Logger.run acts l0)) eqn:Hq; simpl;
    rewrite <- Hfifo; by rewrite ?app_nil_r.
Qed.

(** A logger that is disabled, or whose file could not be opened, starts
    no worker and drops every call: nothing is queued or written, whatever
    the level. *)
Theorem logger_disabled_drops
    (enabled opened : bool) (file level : string) (acts : list Logger.action) :
  enabled && opened = false ->
  let l := Logger.run acts (Logger.ctor enabled file level opened) in
  Logger.logfile_ l = [] /\ Logger.log_queue_ l = [] /\
  Logger.worker_thread_ l = false /\ Logger.dtor l = l.
Proof.
  intros Hoff l. unfold l.
  assert (Logger.enabled_ (Logger.ctor enabled file level opened) = false) as He0.
  { simpl. by destruct enabled, opened. }
  destruct (Logger_run_fixed acts (Logger.ctor enabled file level opened))
    as (He & _ & Hs).
  destruct (Hs eq_refl) as [_ Hw].
  pose proof (Logger_run_fifo acts (Logger.ctor enabled file level opened)) as Hfifo.
  assert (Logger.passed (Logger.ctor enabled file level opened) acts = []) as Hnone.
  { clear -Hoff. induction acts as [|[? ? ? ?|] acts IH]; simpl in *; try done.
    revert Hoff IH. destruct enabled, opened; simpl; try done; auto. }
  rewrite Hnone in Hfifo. simpl in Hfifo.
  apply app_eq_nil in Hfifo as [Hf Hq].
  split_and!; try done.
  - rewrite Hw. simpl. by destruct enabled, opened.
  - unfold Logger.dtor. rewrite He.
    by replace (Logger.enabled_ _) with false.
Qed.

Lemma logger_disabled_drops_witness :
  let l := Logger.run [Logger.call "ERROR" "bind failed" ERROR "2026-01-01 00:00:00";
                       Logger.worker]
                      (Logger.ctor true "/nonexistent/log" "INFO" false) in
  Logger.logfile_ l = [] /\ Logger.log_queue_ l = [] /\
  Logger.worker_thread_ l = false /\ Logger.dtor l = l.
Proof.
  apply (logger_disabled_drops true false "/nonexistent/log" "INFO"). reflexivity.
Defined.

(** ** Validation of the configuration *)

#[local] Arguments String.eqb : simpl never.

Lemma find_replace key v entries : YAML.find key (YAML.replace key v entries) = v.
Proof.
  induction entries as [|[k x] entries IH]; simpl.
  - by rewrite String.eqb_refl.
  - destruct (String.eqb k key) eqn:Hk; simpl; by rewrite Hk.
Qed.

Lemma find_replace_ne key key' v entries :
  key <> key' -> YAML.find key' (YAML.replace key v entries) = YAML.find key' entries.
Proof.
  intros Hne. induction entries as [|[k x] entries IH]; simpl.
  - apply String.eqb_neq in Hne. by rewrite Hne.
  - destruct (String.eqb k key) eqn:Hk; simpl.
    + apply String.eqb_eq in Hk as ->. apply String.eqb_neq in Hne. by rewrite Hne.
    + by rewrite IH.
Qed.

(** What [set_default] does to a map, key by key. *)
Lemma set_default_Map key value entries c' :
  set_default key value (YAML.Map entries) = Some c' ->
  exists entries', c' = YAML.Map entries' /\
    forall k, YAML.find k entries' =
      if YAML.IsDefined (YAML.find k entries) then YAML.find k entries
      else if String.eqb key k then YAML.Scalar value else YAML.Undefined.
Proof.
  unfold set_default, missing. simpl.
  destruct (YAML.IsDefined (YAML.find key entries)) eqn:Hdef; simpl; intros [= <-].
  - exists entries. split; [done|]. intros k.
    destruct (YAML.find k entries) eqn:Hk; simpl; try done.
    destruct (String.eqb_spec key k) as [->|]; [|done]. by rewrite Hk in Hdef.
  - exists (YAML.replace key (YAML.Scalar value) entries). split; [done|]. intros k.
    destruct (String.eqb_spec key k) as [<-|Hne].
    + rewrite find_replace, Hdef. done.
    + rewrite find_replace_ne by done. by destruct (YAML.find k entries).
Qed.

Lemma incomplete_Map_ext group keys entries entries' :
  YAML.find group entries' = YAML.find group entries ->
  incomplete group keys (YAML.Map entries') = incomplete group keys (YAML.Map entries).
Proof. unfold incomplete. simpl. by intros ->. Qed.

Lemma group_missing_false g keys :
  group_missing g keys = Some false <->
  Forall (fun key => exists n, YAML.get key g = Some n /\ YAML.IsDefined n = true) keys.
Proof.
  induction keys as [|key keys IH]; simpl.
  - split; [constructor|done].
  - unfold missing. destruct (YAML.get key g) as [n|] eqn:Hn; simpl.
    + destruct (YAML.IsDefined n) eqn:Hd; simpl.
      * rewrite IH. split.
        -- intros H. constructor; [by exists n|done].
        -- by inversion 1.
      * split; [done|]. inversion 1 as [|? ? (n' & Hn' & Hd') _]. congruence.
    + split; [done|]. inversion 1 as [|? ? (n' & Hn' & _) _]. congruence.
Qed.

Lemma incomplete_false config group keys :
  keys <> [] ->
  incomplete group keys config = Some false <-> Forall (has config group) keys.
Proof.
  intros Hne. unfold incomplete, has.
  destruct (YAML.get group config) as [g|] eqn:Hg.
  - destruct (YAML.IsDefined g) eqn:Hd.
    + rewrite group_missing_false. split; intros H.
      * eapply Forall_impl; [done|]. intros key (n & ? & ?). by exists g, n.
      * eapply Forall_impl; [done|]. intros key (g' & n & Hg' & ? & ?).
        exists n. split; congruence.
    + split; [done|]. destruct keys as [|key keys]; [done|].
      inversion 1 as [|? ? (g' & n & Hg' & Hn & Hdn) _].
      assert (g' = g) as -> by congruence.
      destruct g; simpl in *; try done; by injection Hn as <-.
  - split; [done|]. destruct keys as [|key keys]; [done|].
    inversion 1 as [|? ? (g' & n & Hg' & _) _]. congruence.
Qed.

(** The five [set_default] steps in a row. *)
Lemma set_defaults_Map entries c5 :
  (c1 ← set_default "buffer_size" "8192" (YAML.Map entries);
   c2 ← set_default "tcp_no_delay" "true" c1;
   c3 ← set_default "retry_attempts" "3" c2;
   c4 ← set_default "retry_delay" "2" c3;
   set_default "max_connections" "100" c4) = Some c5 ->
  exists entries5, c5 = YAML.Map entries5 /\
    forall k, YAML.find k entries5 =
      if YAML.IsDefined (YAML.find k entries) then YAML.find k entries
      else match default_of k with
           | Some value => YAML.Scalar value
           | None => YAML.Undefined
           end.
Proof.
  intros H.
  destruct (set_default "buffer_size" _ _) as [c1|] eqn:H1; simpl in H; [|done].
  apply set_default_Map in H1 as (e1 & -> & F1).
  destruct (set_default "tcp_no_delay" _ _) as [c2|] eqn:H2; simpl in H; [|done].
  apply set_default_Map in H2 as (e2 & -> & F2).
  destruct (set_default "retry_attempts" _ _) as [c3|] eqn:H3; simpl in H; [|done].
  apply set_default_Map in H3 as (e3 & -> & F3).
  destruct (set_default "retry_delay" _ _) as [c4|] eqn:H4; simpl in H; [|done].
  apply set_default_Map in H4 as (e4 & -> & F4).
  apply set_default_Map in H as (e5 & -> & F5).
  exists e5. split; [done|]. intros k.
  rewrite F5, F4, F3, F2, F1. unfold default_of, defaults. simpl.
  destruct (YAML.IsDefined (YAML.find k entries)) eqn:Hd; simpl.
  - by rewrite !Hd.
  - repeat (match goal with
            | |- context [String.eqb ?a k] => destruct (String.eqb a k); simpl
            end); done.
Qed.

(** The function, read as its checks on the configuration it was given. *)
Lemma validate_returned config c' :
  validate_and_set_defaults config = returned c' ->
  exists entries entries',
    config = YAML.Map entries /\ c' = YAML.Map entries' /\
    YAML.IsSequence (YAML.find "forwarders" entries) = true /\
    incomplete "thread_pool" ["threads"] config = Some false /\
    incomplete "logging" ["enabled"; "file"] config = Some false /\
    incomplete "health_check" ["enabled"; "interval"] config = Some false /\
    forall k, YAML.find k entries' =
      if YAML.IsDefined (YAML.find k entries) then YAML.find k entries
      else match default_of k with
           | Some value => YAML.Scalar value
           | None => YAML.Undefined
           end.
Proof.
  unfold validate_and_set_defaults.
  destruct (YAML.get "forwarders" config) as [f|] eqn:Hf; [|done].
  destruct (negb (YAML.IsDefined f) || negb (YAML.IsSequence f)) eqn:Hseq; [done|].
  apply orb_false_elim in Hseq as [_ Hseq%negb_false_iff].
  destruct config as [| |s|items|entries]; simpl in Hf; try injection Hf as <-; try done.
  destruct (incomplete "thread_pool" _ _) as [[|]|] eqn:Htp; try done.
  destruct (set_default "buffer_size" _ _) as [c1|] eqn:H1; [|done].
  destruct (set_default "tcp_no_delay" _ _) as [c2|] eqn:H2; [|done].
  destruct (set_default "retry_attempts" _ _) as [c3|] eqn:H3; [|done].
  destruct (set_default "retry_delay" _ _) as [c4|] eqn:H4; [|done].
  destruct (set_default "max_connections" _ _) as [c5|] eqn:H5; [|done].
  destruct (set_defaults_Map entries c5) as (e5 & -> & F5).
  { rewrite H1. simpl. rewrite H2. simpl. rewrite H3. simpl. rewrite H4. done. }
  assert (forall group, default_of group = None ->
                        YAML.find group e5 = YAML.find group entries) as Hsame.
  { intros group Hnone. rewrite F5, Hnone. by destruct (YAML.find group entries). }
  rewrite (incomplete_Map_ext "logging" _ entries e5) by (by apply Hsame).
  rewrite (incomplete_Map_ext "health_check" _ entries e5) by (by apply Hsame).
  destruct (incomplete "logging" _ _) as [[|]|] eqn:Hlog; try done.
  destruct (incomplete "health_check" _ _) as [[|]|] eqn:Hhc; try done.
  intros [= <-]. by exists entries, e5.
Qed.

(** Validation changes nothing but the five optional keys that are absent:
    whatever key is looked up afterwards, a node that was defined is
    still there as it was, an absent key with a default holds the default
    ([8192], [true], [3], [2], [100]), and any other absent key is still
    absent. *)
Theorem validate_fills_defaults (config c' : YAML.Node) (key : string) :
  validate_and_set_defaults config = returned c' ->
  exists n, YAML.get key config = Some n /\
    YAML.get key c' =
      Some (if YAML.IsDefined n then n
            else match default_of key with
                 | Some value => YAML.Scalar value
                 | None => YAML.Undefined
                 end).
Proof.
  intros (entries & entries' & -> & -> & _ & _ & _ & _ & F)%validate_returned.
  exists (YAML.find key entries). simpl. by rewrite F.
Qed.

Lemma set_default_defined key value entries :
  YAML.IsDefined (YAML.find key entries) = true ->
  set_default key value (YAML.Map entries) = Some (YAML.Map entries).
Proof. unfold set_default, missing. simpl. by intros ->. Qed.

Lemma set_default_total key value entries :
  exists entries', set_default key value (YAML.Map entries) = Some (YAML.Map entries').
Proof.
  unfold set_default, missing. simpl.
  destruct (YAML.IsDefined _); simpl; by eexists.
Qed.

(** A configuration that has been validated validates again, and is left
    as it is. *)
Theorem validate_idempotent (config c' : YAML.Node) :
  validate_and_set_defaults config = returned c' ->
  validate_and_set_defaults c' = returned c'.
Proof.
  intros (entries & e' & -> & -> & Hseq & Htp & Hlog & Hhc & F)%validate_returned.
  assert (forall k value, default_of k = Some value ->
                          YAML.IsDefined (YAML.find k e') = true) as Hdef.
  { intros k value Hk. rewrite F, Hk. by destruct (YAML.IsDefined (YAML.find k entries)) eqn:Hd. }
  assert (forall group, default_of group = None ->
                        YAML.find group e' = YAML.find group entries) as Hsame.
  { intros group Hnone. rewrite F, Hnone. by destruct (YAML.find group entries). }
  unfold validate_and_set_defaults. simpl YAML.get.
  rewrite (Hsame "forwarders") by done.
  destruct (YAML.find "forwarders" entries); try done. simpl.
  rewrite (incomplete_Map_ext "thread_pool" _ entries e') by (by apply Hsame).
  rewrite Htp.
  rewrite !set_default_defined by (by eapply Hdef).
  rewrite (incomplete_Map_ext "logging" _ entries e') by (by apply Hsame).
  rewrite (incomplete_Map_ext "health_check" _ entries e') by (by apply Hsame).
  by rewrite Hlog, Hhc.
Qed.

(** The function returns exactly when [forwarders] is a sequence and
    [thread_pool.threads], [logging.enabled], [logging.file],
    [health_check.enabled] and [health_check.interval] are there; it looks
    at no other key and at no value. *)
Theorem validate_accepts_iff (config : YAML.Node) :
  (exists c', validate_and_set_defaults config = returned c') <->
  (exists items, YAML.get "forwarders" config = Some (YAML.Sequence items)) /\
  has config "thread_pool" "threads" /\
  has config "logging" "enabled" /\ has config "logging" "file" /\
  has config "health_check" "enabled" /\ has config "health_check" "interval".
Proof.
  split.
  - intros [c' (entries & e' & -> & -> & Hseq & Htp & Hlog & Hhc & _)%validate_returned].
    apply incomplete_false in Htp, Hlog, Hhc; try done.
    inversion Htp as [|? ? Ha _]. inversion Hlog as [|? ? Hb Hb']. inversion Hb' as [|? ? Hc _].
    inversion Hhc as [|? ? Hd Hd']. inversion Hd' as [|? ? He _].
    split_and!; try done. simpl.
    destruct (YAML.find "forwarders" entries); try done. by eexists.
  - intros ([items Hf] & H1 & H2 & H3 & H4 & H5).
    destruct config as [| |s|its|entries]; simpl in Hf; try done.
    injection Hf as Hf.
    assert (incomplete "thread_pool" ["threads"] (YAML.Map entries) = Some false) as Htp.
    { apply incomplete_false; [done|]. by repeat constructor. }
    assert (incomplete "logging" ["enabled"; "file"] (YAML.Map entries) = Some false) as Hlog.
    { apply incomplete_false; [done|]. by repeat constructor. }
    assert (incomplete "health_check" ["enabled"; "interval"] (YAML.Map entries) = Some false)
      as Hhc.
    { apply incomplete_false; [done|]. by repeat constructor. }
    unfold validate_and_set_defaults. simpl YAML.get. rewrite Hf. simpl. rewrite Htp.
    destruct (set_default_total "buffer_size" "8192" entries) as [e1 H1'].
    destruct (set_default_total "tcp_no_delay" "true" e1) as [e2 H2'].
    destruct (set_default_total "retry_attempts" "3" e2) as [e3 H3'].
    destruct (set_default_total "retry_delay" "2" e3) as [e4 H4'].
    destruct (set_default_total "max_connections" "100" e4) as [e5 H5'].
    rewrite H1', H2', H3', H4', H5'.
    destruct (set_defaults_Map entries (YAML.Map e5)) as (e5' & [= <-] & F5).
    { rewrite H1'. simpl. rewrite H2'. simpl. rewrite H3'. simpl. by rewrite H4'. }
    assert (forall group, default_of group = None ->
                          YAML.find group e5 = YAML.find group entries) as Hsame.
    { intros group Hnone. rewrite F5, Hnone. by destruct (YAML.find group entries). }
    rewrite (incomplete_Map_ext "logging" _ entries e5) by (by apply Hsame).
    rewrite (incomplete_Map_ext "health_check" _ entries e5) by (by apply Hsame).
    rewrite Hlog, Hhc. by eexists.
Qed.

(** Validation does not ask for [logging.level], but [main] reads it with
    [as<std::string>()] to construct the logger: on a validated
    configuration without it, as the example that [help] prints, the
    conversion throws and [main] ends in its handler. *)
Theorem logging_level_not_validated
    (as_bool : YAML.Node -> option bool) (as_string : YAML.Node -> option string)
    (config c' : YAML.Node) :
  as_string YAML.Undefined = None ->
  validate_and_set_defaults config = returned c' ->
  ~ has config "logging" "level" ->
  main_logger_arguments as_bool as_string c' = None.
Proof.
  intros Has (entries & e' & -> & -> & _ & _ & Hlog & _ & F)%validate_returned Hno.
  apply incomplete_false in Hlog; [|done].
  inversion Hlog as [|? ? (g & n & Hg & Hn & Hd) _].
  unfold main_logger_arguments. simpl in *. injection Hg as <-.
  rewrite F. destruct (YAML.find "logging" entries) as [| |s|its|lg] eqn:Hlg;
    simpl in *; try done; try (injection Hn as <-; done).
  destruct (YAML.IsDefined (YAML.find "level" lg)) eqn:Hlevel.
  - exfalso. apply Hno. exists (YAML.Map lg), (YAML.find "level" lg).
    simpl. by rewrite Hlg.
  - destruct (YAML.find "level" lg); try done. rewrite Has.
    by repeat case_match.
Qed.

Lemma logging_level_not_validated_witness :
  exists c' : YAML.Node,
    validate_and_set_defaults help_example = returned c' /\
    ~ has help_example "logging" "level" /\
    main_logger_arguments scalar_as_bool scalar_as_string c' = None.
Proof.
  eexists. split; [reflexivity|].
  assert (~ has help_example "logging" "level") as Hno.
  { intros (g & n & Hg & Hn & Hd). vm_compute in Hg. injection Hg as <-.
    vm_compute in Hn. injection Hn as <-. discriminate. }
  split; [exact Hno|].
  apply (logging_level_not_validated scalar_as_bool scalar_as_string help_example);
    [reflexivity | reflexivity | exact Hno].
Defined.

Lemma validate_fills_defaults_witness :
  exists c' : YAML.Node,
    validate_and_set_defaults least_config = returned c' /\
    exists n, YAML.get "buffer_size" least_config = Some n /\
      YAML.get "buffer_size" c' =
        Some (if YAML.IsDefined n then n
              else match default_of "buffer_size" with
                   | Some value => YAML.Scalar value
                   | None => YAML.Undefined
                   end).
Proof.
  eexists. split; [reflexivity|].
  apply (validate_fills_defaults least_config _ "buffer_size"). reflexivity.
Defined.

Lemma validate_idempotent_witness :
  exists c' : YAML.Node,
    validate_and_set_defaults least_config = returned c' /\
    validate_and_set_defaults c' = returned c'.
Proof.
  eexists. split; [reflexivity|].
  apply (validate_idempotent least_config). reflexivity.
Defined.

(** ** The connect phase, whether it ends well or not *)

Lemma attempts_step t c s tr s' es :
  lifecycle s tr -> attempts_ok s ->
  deliver t c s = Some (s', es) ->
  attempts_ok s' /\ retry_attempts_ s' = retry_attempts_ s.
Proof.
  intros Hlife [Hb Hc] Hstep.
  pose proof (lifecycle_step _ _ _ _ _ _ Hlife Hstep) as Hlife'.
  destruct Hlife as [_ [(_ & _ & _ & _ & _ & Hout)|(Hops & _)]].
  - unfold deliver, complete in Hstep.
    destruct Hout as [Hout|[[Hout _]|Hout]]; rewrite Hout in Hstep.
    + by repeat case_match.
    + specialize (Hc Hout). destruct (now s <=? t); [|done].
      destruct c as [ec nodelay_ec|ec|? ? ? ? ?|? ? ? ? ? ?]; simpl in Hstep;
        try done; [|by repeat case_match..].
      unfold on_connect in Hstep. unfold_handlers.
      unfold set_no_delay_out, logger_, emit in Hstep.
      destruct (is_error ec), (is_error nodelay_ec); simpl in Hstep;
        injection Hstep as <- <-; unfold attempts_ok; simpl;
        (split; [split; [lia|done]|done]).
    + destruct (now s <=? t); [|done].
      destruct c as [ec nodelay_ec|ec|? ? ? ? ?|? ? ? ? ? ?]; simpl in Hstep;
        try done; [|by repeat case_match..].
      destruct (_ && _); [|done]. simpl in Hstep.
      unfold on_wait, attempt_connection in Hstep. simpl in Hstep.
      destruct (Z.geb_spec (current_attempt_ s) (retry_attempts_ s));
        unfold_handlers; simpl in Hstep; injection Hstep as <- <-;
        unfold attempts_ok; simpl; (split; [split; [lia|done]|done]).
  - assert (outstanding s' <> [async_connect]) as Hno.
    { destruct Hlife' as [_ [(_ & _ & _ & Htd & Hempty & Hout')|(Hops' & _)]].
      - (* a session that forwards does not turn back *)
        intros Heq. unfold deliver, complete in Hstep.
        destruct (now s <=? t); [|done].
        destruct c as [ec nodelay_ec|ec|src dst buf ec data|src dst buf n ec k].
        + destruct (take_op _ _) eqn:Htake; [|done]. apply take_op_elem in Htake.
          by destruct (proj1 (Forall_forall _ _) Hops _ Htake) as (? & _ & ?).
        + destruct (_ && _); [|done].
          destruct (take_op _ _) eqn:Htake; [|done]. apply take_op_elem in Htake.
          by destruct (proj1 (Forall_forall _ _) Hops _ Htake) as (? & _ & ?).
        + destruct (_ && _); [|done].
          destruct (take_op _ _) as [rest|] eqn:Htake; [|done].
          pose proof (take_op_Forall _ _ _ _ Htake Hops) as Hrest.
          destruct ec; unfold_handlers; simpl in Hstep; injection Hstep as <- <-;
            simpl in Heq.
          * destruct rest; simpl in Heq; [done|]. injection Heq as -> Heq.
            by inversion Hrest as [|? ? (? & _ & ?) _].
          * rewrite Heq in Hrest. by inversion Hrest as [|? ? (? & _ & ?) _].
          * rewrite Heq in Hrest. by inversion Hrest as [|? ? (? & _ & ?) _].
        + destruct (_ && _); [|done].
          destruct (take_op _ _) as [rest|] eqn:Htake; [|done].
          pose proof (take_op_Forall _ _ _ _ Htake Hops) as Hrest.
          destruct ec; unfold_handlers; simpl in Hstep; injection Hstep as <- <-;
            simpl in Heq.
          * destruct rest; simpl in Heq; [done|]. injection Heq as -> Heq.
            by inversion Hrest as [|? ? (? & _ & ?) _].
          * rewrite Heq in Hrest. by inversion Hrest as [|? ? (? & _ & ?) _].
          * rewrite Heq in Hrest. by inversion Hrest as [|? ? (? & _ & ?) _].
      - intros Heq. rewrite Heq in Hops'.
        by inversion Hops' as [|? ? (? & _ & ?) _]. }
    assert (current_attempt_ s' = current_attempt_ s /\
            retry_attempts_ s' = retry_attempts_ s) as [Ha Hn].
    { unfold deliver, complete in Hstep.
      destruct (now s <=? t); [|done].
      destruct c as [ec nodelay_ec|ec|src dst buf ec data|src dst buf n ec k].
      - destruct (take_op _ _) eqn:Htake; [|done]. apply take_op_elem in Htake.
        by destruct (proj1 (Forall_forall _ _) Hops _ Htake) as (? & _ & ?).
      - destruct (_ && _); [|done].
        destruct (take_op _ _) eqn:Htake; [|done]. apply take_op_elem in Htake.
        by destruct (proj1 (Forall_forall _ _) Hops _ Htake) as (? & _ & ?).
      - destruct (_ && _); [|done]. destruct (take_op _ _); [|done].
        destruct ec; unfold_handlers; simpl in Hstep; injection Hstep as <- <-;
          by destruct buf.
      - destruct (_ && _); [|done]. destruct (take_op _ _); [|done].
        destruct ec; unfold_handlers; simpl in Hstep; by injection Hstep as <- <-. }
    split; [|done]. unfold attempts_ok. rewrite Ha, Hn. done.
Qed.

(** In every state a session reaches, whether its connects fail or
    succeed, the attempt counter lies between 0 and [retry_attempts] (so
    its increment cannot overflow), and what is outstanding is nothing, or
    one connect, or one wait on the timer, or operations of the copy loops
    only: the timer is never set while a wait on it is outstanding, and no
    connect is issued while the session forwards. *)
Theorem connect_phase_discipline
    (t0 : Z) (target : endpoint) (bs : nat) (nd : bool) (n d : Z)
    (cs : list (Z * completion)) (s' : Session) (es : list event) :
  run cs (fst (started t0 target bs nd n d)) = Some (s', es) ->
  0 <= current_attempt_ s' <= Z.max 0 n /\
  retry_attempts_ s' = n /\
  (outstanding s' = [] \/ outstanding s' = [async_connect] \/
   outstanding s' = [async_wait] \/
   (outstanding s' <> [] /\ Forall copy_op (outstanding s'))).
Proof.
  assert (forall cs s tr s' es, lifecycle s tr -> attempts_ok s ->
            run cs s = Some (s', es) ->
            lifecycle s' (tr ++ es) /\ attempts_ok s' /\
            retry_attempts_ s' = retry_attempts_ s) as Hrun.
  { clear. induction cs as [|[t c] cs IH]; intros s tr s' es Hl Ha; simpl.
    - intros [= <- <-]. by rewrite app_nil_r.
    - destruct (deliver t c s) as [[s1 e1]|] eqn:Hstep; [|done].
      destruct (run cs s1) as [[s2 e2]|] eqn:Hr; [|done]. intros [= <- <-].
      destruct (attempts_step _ _ _ _ _ _ Hl Ha Hstep) as [Ha1 Hn1].
      pose proof (lifecycle_step _ _ _ _ _ _ Hl Hstep) as Hl1.
      destruct (IH _ _ _ _ Hl1 Ha1 Hr) as (Hl2 & Ha2 & Hn2).
      rewrite app_assoc. split_and!; [done|done|congruence]. }
  intros H.
  assert (attempts_ok (fst (started t0 target bs nd n d)) /\
          retry_attempts_ (fst (started t0 target bs nd n d)) = n) as [Ha0 Hn0].
  { unfold started, start, attempt_connection, and_then, attempts_ok. simpl.
    destruct (Z.geb_spec 0 n); unfold_handlers; simpl; (split; [|done]);
      (split; [lia|]); [done|intros _; lia]. }
  destruct (Hrun _ _ _ _ _ (lifecycle_started t0 target bs nd n d) Ha0 H)
    as (Hl & [Hb _] & Hn).
  rewrite Hn0 in Hn. rewrite Hn in Hb. split_and!; [lia|lia|done|].
  destruct Hl as [_ [(_ & _ & _ & _ & _ & Hout)|(Hops & _)]].
  - destruct Hout as [?|[[? _]|?]]; auto.
  - destruct (outstanding s') eqn:Ho; [by left|]. right; right; right. by split.
Qed.

Lemma connect_phase_discipline_witness :
  exists (s' : Session) (es : list event),
    run demo_relay (fst (started 0 demo_target 4 true 3 2)) = Some (s', es) /\
    0 <= current_attempt_ s' <= Z.max 0 3 /\
    retry_attempts_ s' = 3 /\
    (outstanding s' = [] \/ outstanding s' = [async_connect] \/
     outstanding s' = [async_wait] \/
     (outstanding s' <> [] /\ Forall copy_op (outstanding s'))).
Proof.
  eexists _, _. split; [vm_compute; reflexivity|].
  eapply (connect_phase_discipline 0 demo_target 4 true 3 2 demo_relay).
  vm_compute; reflexivity.
Defined.
